(** * zignal: the connection registry, the broadcast and the client send loop

    A shallow embedding of [src/server/server.c] and [src/client/client.c].

    - The global array [client_sockets] is a [list Z]; the three scans over
      it are loops on the slot index, written with list lookup and update.
    - [char] buffers are [list ascii]; the C string stored in a buffer is the
      part before its first NUL.
    - What a function does to the outside (mutex, sockets, standard output)
      is the list of [event]s it returns, in program order. *)

From Stdlib Require Import ZArith Ascii String Lia.
From stdpp Require Import base decidable numbers list strings pretty.

Local Open Scope Z_scope.
Local Open Scope nat_scope.

#[global] Set Warnings "-clear-no-such-hyp".

(** ** Events *)

Inductive event : Type :=
| EvLock                                    (* pthread_mutex_lock(&clients_mutex) *)
| EvUnlock                                  (* pthread_mutex_unlock(&clients_mutex) *)
| EvSend (sock : Z) (data : list ascii)     (* send(sock, data, |data|, 0) *)
| EvClose (sock : Z)                        (* close(sock) *)
| EvPrint (text : list ascii).              (* printf / perror *)

Global Instance event_eq_dec : EqDecision event.
Proof. solve_decision. Defined.

(** The sockets written to, in order. *)
Definition recipients (tr : list event) : list Z :=
  omap (λ e, match e with EvSend s _ => Some s | _ => None end) tr.

(** The data written to socket [s], in order. *)
Definition delivered (s : Z) (tr : list event) : list (list ascii) :=
  omap (λ e, match e with
             | EvSend s' d => if decide (s' = s) then Some d else None
             | _ => None
             end) tr.

(** How a turn of a [while (1)] loop ends. *)
Inductive loop_ctl : Type := Continue | Break.

Global Instance loop_ctl_eq_dec : EqDecision loop_ctl.
Proof. solve_decision. Defined.

(** [#define BUFFER_SIZE 1024], in [server.c] and in [client.c]. *)
Definition BUFFER_SIZE : nat := 1024.

(** ** C strings *)

Module CString.

Definition NUL : ascii := Ascii.zero.
Definition LF : ascii := "010"%char.

Definition chars (s : string) : list ascii := list_ascii_of_string s.

(** [strlen]: the index of the first NUL of the array.  An array without a
    NUL makes the C function read past its end; no result is given. *)
Fixpoint strlen (a : list ascii) : option nat :=
  match a with
  | [] => None
  | c :: a' => if decide (c = NUL) then Some 0 else S <$> strlen a'
  end.

(** The string an array holds: what [%s], [strcmp] and [send(.., strlen)]
    read from it. *)
Definition c_str (a : list ascii) : option (list ascii) :=
  n ← strlen a; Some (take n a).

(** [strcspn(a, reject)]: the length of the initial part of the string with
    no character of [reject]. *)
Fixpoint strcspn (a : list ascii) (reject : list ascii) : option nat :=
  match a with
  | [] => None
  | c :: a' =>
      if decide (c = NUL ∨ c ∈ reject) then Some 0 else S <$> strcspn a' reject
  end.

(** [memset(buf, 0, n)] on an [n]-byte buffer. *)
Definition zeroed (n : nat) : list ascii := replicate n NUL.

(** Bytes [data] stored at the start of the array [buf]. *)
Definition store (data buf : list ascii) : list ascii :=
  take (length buf) (data ++ drop (length data) buf).

(** [%d] *)
Definition fmt_d (z : Z) : list ascii := chars (pretty z).

(** [snprintf(dst, size, ...)] where the format expands to [text]: at most
    [size - 1] characters, then the terminator. *)
Definition snprintf (size : nat) (text : list ascii) : list ascii :=
  take (size - 1) text ++ [NUL].

(** The characters of [p] before its first NUL. *)
Fixpoint until_nul (p : list ascii) : list ascii :=
  match p with
  | [] => []
  | c :: p' => if decide (c = NUL) then [] else c :: until_nul p'
  end.

(** The range of [int]. *)
Definition int_range (z : Z) : Prop := (- 2 ^ 31 ≤ z < 2 ^ 31)%Z.

End CString.
Import CString.

(** ** The server: [src/server/server.c] *)

Module Server.

Definition MAX_CLIENTS : nat := 10.

(** [int client_sockets[MAX_CLIENTS] = {0}] *)
Definition init_sockets : list Z := replicate MAX_CLIENTS 0%Z.

(** The scans below run [i] over [0 .. MAX_CLIENTS-1]; [n] counts the
    iterations left.  The array has [MAX_CLIENTS] entries, so the lookup
    succeeds on every iteration; on a shorter list the missing slot is
    passed over.

    [add_client] and [remove_client] hold [clients_mutex] for the whole scan
    and do nothing outside it: they are functions on the array, and the
    sessions that call them record the lock and the unlock. *)

Fixpoint add_client_loop (n i : nat) (client_sockets : list Z)
    (new_socket : Z) : list Z :=
  match n with
  | O => client_sockets
  | S n' =>
      if decide (client_sockets !! i = Some 0%Z)
      then <[i := new_socket]> client_sockets
      else add_client_loop n' (S i) client_sockets new_socket
  end.

Definition add_client (client_sockets : list Z) (new_socket : Z) : list Z :=
  add_client_loop MAX_CLIENTS 0 client_sockets new_socket.

Fixpoint remove_client_loop (n i : nat) (client_sockets : list Z)
    (socket : Z) : list Z :=
  match n with
  | O => client_sockets
  | S n' =>
      if decide (client_sockets !! i = Some socket)
      then <[i := 0%Z]> client_sockets
      else remove_client_loop n' (S i) client_sockets socket
  end.

Definition remove_client (client_sockets : list Z) (socket : Z) : list Z :=
  remove_client_loop MAX_CLIENTS 0 client_sockets socket.

Fixpoint broadcast_loop (n i : nat) (client_sockets : list Z)
    (sender_socket : Z) (message : list ascii) : option (list event) :=
  match n with
  | O => Some []
  | S n' =>
      match client_sockets !! i with
      | Some c =>
          if decide (c ≠ 0%Z ∧ c ≠ sender_socket)
          then len ← strlen message;
               rest ← broadcast_loop n' (S i) client_sockets sender_socket message;
               Some (EvSend c (take len message) :: rest)
          else broadcast_loop n' (S i) client_sockets sender_socket message
      | None => broadcast_loop n' (S i) client_sockets sender_socket message
      end
  end.

(** The lock is taken before the scan and released after it; every [send]
    is issued inside. *)
Definition broadcast_message (client_sockets : list Z) (sender_socket : Z)
    (message : list ascii) : option (list event) :=
  sends ← broadcast_loop MAX_CLIENTS 0 client_sockets sender_socket message;
  Some (EvLock :: sends ++ [EvUnlock]).

(** The registry operations of the specification.  [Snapshot] is the
    membership that the scan of [broadcast_message] visits: the sockets it
    writes to when broadcasting the empty string. *)
Definition Snapshot (client_sockets : list Z) (excluding : Z) : list Z :=
  recipients (default [] (broadcast_message client_sockets excluding [NUL])).

Inductive op : Type := Add (h : Z) | Remove (h : Z).

Global Instance op_eq_dec : EqDecision op.
Proof. solve_decision. Defined.

Definition apply_op (cs : list Z) (o : op) : list Z :=
  match o with
  | Add h => add_client cs h
  | Remove h => remove_client cs h
  end.

Definition run_from (cs : list Z) (ops : list op) : list Z :=
  foldl apply_op cs ops.

Definition run_ops (ops : list op) : list Z := run_from init_sockets ops.

(** The registered handles: the contents of the occupied slots. *)
Definition members (cs : list Z) : list Z := filter (λ c, c ≠ 0%Z) cs.

(** A handle "added and not subsequently removed" by a sequence. *)
Definition added_not_removed (ops : list op) (x : Z) : Prop :=
  ∃ pre post, ops = pre ++ Add x :: post ∧ Remove x ∉ post.

(** [adds_ok ok cs ops]: every [Add x] of [ops], run from [cs], comes in a
    state that [ok] accepts. *)
Fixpoint adds_ok (ok : list Z → Z → bool) (cs : list Z) (ops : list op) : bool :=
  match ops with
  | [] => true
  | o :: ops' =>
      (match o with Add x => ok cs x | Remove _ => true end)
      && adds_ok ok (apply_op cs o) ops'
  end.

(** The handle is not registered yet: it is in no slot, or it is 0, which
    marks the empty slots and is never registered. *)
Definition fresh (cs : list Z) (x : Z) : bool :=
  bool_decide (x = 0%Z ∨ x ∉ cs).

(** The handle is a new, non-zero one and a slot is free. *)
Definition fits (cs : list Z) (x : Z) : bool :=
  bool_decide (x ≠ 0%Z ∧ (x ∉ cs) ∧ (0%Z ∈ cs)).

(** *** The scans as list recursions *)

(** What [add_client] and [remove_client] compute, by recursion on the array:
    the first empty slot is filled, the first slot holding the socket is
    emptied.  [add_client_add_first] and [remove_client_remove_first] relate
    them to the loops. *)

Fixpoint add_first (cs : list Z) (s : Z) : list Z :=
  match cs with
  | [] => []
  | c :: cs' => if decide (c = 0%Z) then s :: cs' else c :: add_first cs' s
  end.

Fixpoint remove_first (cs : list Z) (s : Z) : list Z :=
  match cs with
  | [] => []
  | c :: cs' => if decide (c = s) then 0%Z :: cs' else c :: remove_first cs' s
  end.

(** The slots a broadcast from [sender] writes to. *)
Definition targets (cs : list Z) (sender : Z) : list Z :=
  filter (λ c, c ≠ 0%Z ∧ c ≠ sender) cs.

(** The number of slots that hold [h]. *)
Definition slots_of (cs : list Z) (h : Z) : nat :=
  length (filter (λ c, c = h) cs).

(** *** Sessions: [handle_client] *)

(** [client_info_t] of [client.h]. *)
Record client_info_t : Type := { sock : Z; client_id : Z }.

(** What [getpeername] reports, as [inet_ntop] and [ntohs] render it. *)
Record peer_addr : Type := { client_ip : list ascii; client_port : Z }.

(** What one [read(new_socket, buffer, BUFFER_SIZE)] returns: the bytes
    received (none at end of stream), or an error. *)
Inductive read_result : Type := ReadBytes (data : list ascii) | ReadFail.

(** [memset(buffer, 0, BUFFER_SIZE); valread = read(...)]: at most
    [BUFFER_SIZE] bytes are stored. *)
Definition read_into (buffer : list ascii) (r : read_result) : list ascii * Z :=
  match r with
  | ReadBytes data =>
      let d := take (length buffer) data in
      (store d buffer, Z.of_nat (length d))
  | ReadFail => (buffer, (-1)%Z)
  end.

Definition log_connected (peer : peer_addr) (id : Z) : list ascii :=
  chars "[Server]: Client " ++ client_ip peer ++ chars ":"
    ++ fmt_d (client_port peer) ++ chars " connected with ID: " ++ fmt_d id ++ [LF].

Definition log_disconnected (peer : peer_addr) (id : Z) : list ascii :=
  chars "[Server]: Client " ++ client_ip peer ++ chars ":"
    ++ fmt_d (client_port peer) ++ chars " (ID: " ++ fmt_d id
    ++ chars ") disconnected" ++ [LF].

Definition log_sent (id : Z) (text : list ascii) : list ascii :=
  chars "[Server]: Client " ++ fmt_d id ++ chars " sent: " ++ text ++ [LF].

(** The text of ["[Client %d]: %s"]. *)
Definition tagged (id : Z) (text : list ascii) : list ascii :=
  chars "[Client " ++ fmt_d id ++ chars "]: " ++ text.

Section Identity.

(** The generator behind [srand] and [rand]: the state a seed selects, and
    the draw of the next number. *)
Context {rand_state : Type}.
Variable seed_state : Z → rand_state.
Variable next_rand : rand_state → Z * rand_state.

(** [srand(time(NULL))]: the time value is converted to [unsigned int]. *)
Definition srand (now : Z) (g : rand_state) : rand_state :=
  seed_state (now mod 2 ^ 32)%Z.

Definition rand (g : rand_state) : Z * rand_state := next_rand g.

(** [handle_client] up to the read loop: the [client_info_t] is allocated, the
    identity drawn, the socket registered.  When [malloc] fails the socket is
    closed and the thread ends.

    The calls of [srand] and [rand] are run here one after the other on the
    generator handed in, as they are when no other thread calls the generator
    between them.  Nothing in the code keeps other threads out: they are
    separate calls on the shared generator in [Threads.draws]. *)
Definition session_start (cs : list Z) (g : rand_state) (new_socket : Z)
    (malloc_ok : bool) (now : Z) (peer : peer_addr)
    : list Z * rand_state * option client_info_t * list event :=
  if malloc_ok then
    let g1 := srand now g in
    let '(id, g2) := rand g1 in
    let client_info := {| sock := new_socket; client_id := id |} in
    (add_client cs new_socket, g2, Some client_info,
     [EvPrint (log_connected peer id); EvLock; EvUnlock])
  else
    (cs, g, None,
     [EvPrint (chars "[Server]: Memory allocation failed"); EvClose new_socket]).

End Identity.

(** A peer address and a generator to run the examples with. *)
Definition example_peer : peer_addr :=
  {| client_ip := chars "10.0.0.2"; client_port := 5000 |}.
Definition lcg_seed (seed : Z) : Z := seed.
Definition lcg_next (g : Z) : Z * Z :=
  ((g `div` 65536) `mod` 32768, (g * 1103515245 + 12345) `mod` 2 ^ 31)%Z.

(** One turn of the read loop of [handle_client].  On [valread <= 0] the loop
    is left and the code after it runs: the socket is deregistered and
    closed.  Otherwise the buffer is formatted behind the sender's tag and
    broadcast.  No result is given when [%s] finds no terminator in the
    buffer. *)
Definition session_read (cs : list Z) (client_info : client_info_t)
    (peer : peer_addr) (r : read_result)
    : option (list Z * list event * loop_ctl) :=
  let '(buffer, valread) := read_into (zeroed BUFFER_SIZE) r in
  if decide (valread ≤ 0)%Z then
    Some (remove_client cs (sock client_info),
          [EvPrint (log_disconnected peer (client_id client_info));
           EvLock; EvUnlock; EvClose (sock client_info)],
          Break)
  else
    text ← c_str buffer;
    let message_with_id :=
      snprintf (BUFFER_SIZE + 50) (tagged (client_id client_info) text) in
    sends ← broadcast_message cs (sock client_info) message_with_id;
    Some (cs, EvPrint (log_sent (client_id client_info) text) :: sends, Continue).

(** The read loop on the successive results of [read], without other
    threads in between.  When the results run out the thread is blocked in
    [read]. *)
Fixpoint read_loop (cs : list Z) (client_info : client_info_t)
    (peer : peer_addr) (reads : list read_result)
    : option (list Z * list event) :=
  match reads with
  | [] => Some (cs, [])
  | r :: reads' =>
      '(cs1, tr, ctl) ← session_read cs client_info peer r;
      match ctl with
      | Break => Some (cs1, tr)
      | Continue =>
          '(cs2, tr') ← read_loop cs1 client_info peer reads';
          Some (cs2, tr ++ tr')
      end
  end.

Definition handle_client {rand_state : Type} (seed_state : Z → rand_state)
    (next_rand : rand_state → Z * rand_state)
    (cs : list Z) (g : rand_state) (new_socket : Z) (malloc_ok : bool)
    (now : Z) (peer : peer_addr) (reads : list read_result)
    : option (list Z * rand_state * list event) :=
  let '(cs1, g1, info, tr) :=
    session_start seed_state next_rand cs g new_socket malloc_ok now peer in
  match info with
  | None => Some (cs1, g1, tr)
  | Some client_info =>
      '(cs2, tr') ← read_loop cs1 client_info peer reads;
      Some (cs2, g1, tr ++ tr')
  end.

(** *** The server as a whole *)

(** A run of the server as a sequence of steps of its threads, each the start
    of a session on an accepted socket or one turn of a session's read loop.

    These steps are coarser than the code's: a turn that finds its stream at
    the end also deregisters and closes the socket, and the start of a session
    draws the identity and registers the socket, all in the one step.  The
    mutex is held inside [add_client], [remove_client] and [broadcast_message]
    only, so calls of other threads can run between those of one step; the
    calls are run one by one in [Threads.thread_run]. *)
Inductive action : Type :=
| Accept (new_socket : Z) (malloc_ok : bool) (now : Z) (peer : peer_addr)
| Input (client_info : client_info_t) (peer : peer_addr) (r : read_result).

Definition system_step {rand_state : Type} (seed_state : Z → rand_state)
    (next_rand : rand_state → Z * rand_state)
    (st : list Z * rand_state) (a : action)
    : option (list Z * rand_state * list event) :=
  match a with
  | Accept new_socket malloc_ok now peer =>
      let '(cs1, g1, _, tr) :=
        session_start seed_state next_rand st.1 st.2 new_socket malloc_ok now peer in
      Some (cs1, g1, tr)
  | Input client_info peer r =>
      '(cs1, tr, _) ← session_read st.1 client_info peer r;
      Some (cs1, st.2, tr)
  end.

Fixpoint system_run {rand_state : Type} (seed_state : Z → rand_state)
    (next_rand : rand_state → Z * rand_state)
    (st : list Z * rand_state) (acts : list action)
    : option (list Z * rand_state * list event) :=
  match acts with
  | [] => Some (st, [])
  | a :: acts' =>
      '(st1, tr) ← system_step seed_state next_rand st a;
      '(st2, tr') ← system_run seed_state next_rand st1 acts';
      Some (st2, tr ++ tr')
  end.

(** Whether the mutex is held at each [send] of a trace, in order. *)
Fixpoint send_lock_states (held : bool) (tr : list event) : list bool :=
  match tr with
  | [] => []
  | EvLock :: tr' => send_lock_states true tr'
  | EvUnlock :: tr' => send_lock_states false tr'
  | EvSend _ _ :: tr' => held :: send_lock_states held tr'
  | _ :: tr' => send_lock_states held tr'
  end.

(** *** The registry properties, as the specification words them *)

(** [Snapshot(excluding: h)] after [ops]: without [h], without repetition,
    and with exactly the handles added and not removed since. *)
Definition snapshot_exact (ops : list op) (h : Z) : Prop :=
  (h ∉ Snapshot (run_ops ops) h)
  ∧ NoDup (Snapshot (run_ops ops) h)
  ∧ ∀ x, x ∈ Snapshot (run_ops ops) h ↔ x ≠ h ∧ added_not_removed ops x.

(** The handle [h] is in at most one slot after [ops], and adding it again
    when it is there changes nothing. *)
Definition stored_once (ops : list op) (h : Z) : Prop :=
  slots_of (run_ops ops) h ≤ 1
  ∧ (h ∈ run_ops ops → add_client (run_ops ops) h = run_ops ops).

(** [Remove(h)] does nothing when [h] is absent, and a second [Remove(h)]
    does nothing more than the first. *)
Definition remove_idempotent (cs : list Z) (h : Z) : Prop :=
  (h ∉ cs → remove_client cs h = cs)
  ∧ remove_client (remove_client cs h) h = remove_client cs h.

(** *** The broadcast properties, as the specification words them *)

(** A sends [P]: the peer [B] is written exactly the tag followed by [P],
    and A's own socket is written nothing. *)
Definition broadcast_exact (cs : list Z) (A : client_info_t) (peer : peer_addr)
    (B : Z) (P : list ascii) : Prop :=
  ∃ tr, session_read cs A peer (ReadBytes P) = Some (cs, tr, Continue)
        ∧ delivered B tr = [tagged (client_id A) P]
        ∧ delivered (sock A) tr = [].

(** Every [send] of the broadcast comes when the mutex is not held. *)
Definition writes_outside_lock (cs : list Z) (sender : Z)
    (message : list ascii) : Prop :=
  ∀ tr, broadcast_message cs sender message = Some tr →
        Forall (λ held, held = false) (send_lock_states false tr).

(** A connection on socket [s] is either registered by the start of its
    session, or refused: no session is set up and the socket is closed. *)
Definition capacity_handled {rand_state : Type} (seed_state : Z → rand_state)
    (next_rand : rand_state → Z * rand_state)
    (cs : list Z) (g : rand_state) (s : Z) (now : Z) (peer : peer_addr) : Prop :=
  let '(cs1, _, info, tr) :=
    session_start seed_state next_rand cs g s true now peer in
  s ∈ cs1 ∨ (info = None ∧ EvClose s ∈ tr).

(** The identity a session is given at its start. *)
Definition assigned_id {rand_state : Type} (seed_state : Z → rand_state)
    (next_rand : rand_state → Z * rand_state)
    (cs : list Z) (g : rand_state) (s : Z) (now : Z) (peer : peer_addr)
    : option Z :=
  client_id <$> (session_start seed_state next_rand cs g s true now peer).1.2.

(** The step starts a session on socket [s]. *)
Definition accepts (s : Z) (a : action) : bool :=
  match a with
  | Accept s' _ _ _ => bool_decide (s' = s)
  | Input _ _ _ => false
  end.

(** A run to try the server on: socket 1 sends, socket 2 disconnects, socket
    1 sends again. *)
Definition example_acts : list action :=
  [Input {| sock := 1; client_id := 41 |} example_peer (ReadBytes (chars "hi"));
   Input {| sock := 2; client_id := 42 |} example_peer ReadFail;
   Input {| sock := 1; client_id := 41 |} example_peer (ReadBytes (chars "yo"))].

End Server.

(** ** The client: [src/client/client.c] *)

Module Client.

(** The characters one [fgets] call takes from the input: at most [n], up to
    and including the first newline.  The second component is the input left
    for the next call. *)
Fixpoint fgets_chars (n : nat) (stdin : list ascii) : list ascii * list ascii :=
  match n, stdin with
  | S n', c :: rest =>
      if decide (c = LF) then ([c], rest)
      else let '(got, rest') := fgets_chars n' rest in (c :: got, rest')
  | _, _ => ([], stdin)
  end.

(** [fgets(buffer, BUFFER_SIZE, stdin)]: the characters and a terminator are
    stored; at end of input nothing is stored. *)
Definition fgets (buffer : list ascii) (stdin : list ascii)
    : list ascii * list ascii :=
  let '(got, rest) := fgets_chars (length buffer - 1) stdin in
  match got with
  | [] => (buffer, rest)
  | _ => (store (got ++ [NUL]) buffer, rest)
  end.

Definition prompt : list ascii := chars "Message: ".
Definition exiting : list ascii := chars "[Info]: Exiting..." ++ [LF].

(** One turn of the send loop of [start_client]. *)
Definition send_turn (sock : Z) (stdin : list ascii)
    : option (list event * loop_ctl * list ascii) :=
  let '(buffer, rest) := fgets (zeroed BUFFER_SIZE) stdin in
  i ← strcspn buffer [LF];
  let buffer := <[i := NUL]> buffer in
  line ← c_str buffer;
  if decide (line = chars "exit")
  then Some ([EvPrint prompt; EvPrint exiting], Break, rest)
  else Some ([EvPrint prompt; EvSend sock line], Continue, rest).

(** [start_client] from the send loop on, with [sock] connected: the loop
    runs until a turn breaks, then the socket is closed.  [fuel] bounds the
    number of turns; [Continue] in the result says the loop was still running
    when the fuel ran out. *)
Fixpoint start_client (fuel : nat) (sock : Z) (stdin : list ascii)
    : option (list event * loop_ctl) :=
  match fuel with
  | O => Some ([], Continue)
  | S fuel' =>
      '(tr, ctl, rest) ← send_turn sock stdin;
      match ctl with
      | Break => Some (tr ++ [EvClose sock], Break)
      | Continue =>
          '(tr', ctl') ← start_client fuel' sock rest;
          Some (tr ++ tr', ctl')
      end
  end.

(** *** The send loop, as the specification words it *)

(** The input line [l], ended by a newline, is handled in one turn: "exit"
    leaves the loop, any other line is written to the socket without its
    newline. *)
Definition line_handled (sock : Z) (l rest : list ascii) : Prop :=
  send_turn sock (l ++ LF :: rest)
  = Some (if decide (l = chars "exit")
          then ([EvPrint prompt; EvPrint exiting], Break, rest)
          else ([EvPrint prompt; EvSend sock l], Continue, rest)).

End Client.

(** ** The rest of the programs *)

(** [atoi] of the C library, as [main] uses it on the port argument. *)

Module CStdlib.

(** The value of a decimal digit. *)
Definition digit_value (c : ascii) : option Z := Z.of_nat <$> Ascii.is_nat c.

(** The digits at the start of [s], read from the left onto [acc]. *)
Fixpoint atoi_digits (acc : Z) (s : list ascii) : Z :=
  match s with
  | [] => acc
  | c :: s' =>
      match digit_value c with
      | Some d => atoi_digits (10 * acc + d) s'
      | None => acc
      end
  end.

Fixpoint skip_spaces (s : list ascii) : list ascii :=
  match s with
  | [] => []
  | c :: s' => if Ascii.is_space c then skip_spaces s' else s
  end.

(** [atoi(s)]: white space is skipped, a sign is taken, the digits that
    follow are read and the rest is ignored.  A value outside [int] has no
    defined result. *)
Definition atoi (s : list ascii) : option Z :=
  let s1 := skip_spaces s in
  let v :=
    match s1 with
    | c :: s2 =>
        if decide (c = "-"%char) then (- atoi_digits 0 s2)%Z
        else if decide (c = "+"%char) then atoi_digits 0 s2
        else atoi_digits 0 s1
    | [] => 0%Z
    end in
  if decide (int_range v) then Some v else None.

End CStdlib.
Import CStdlib.

(** *** [src/main.c] *)

Module Main.

(** The text [print_help] writes. *)
Definition print_help (prog_name : list ascii) : list ascii :=
  chars "Usage: " ++ prog_name ++ chars " <server|client> [IP] [PORT]" ++ [LF]
  ++ [LF] ++ chars "Options:" ++ [LF]
  ++ chars "  server         Start the server." ++ [LF]
  ++ chars "  client <IP> <PORT>  Start the client and connect to the specified IP and PORT."
  ++ [LF]
  ++ [LF] ++ chars "Examples:" ++ [LF]
  ++ chars "  " ++ prog_name ++ chars " server" ++ [LF]
  ++ chars "  " ++ prog_name ++ chars " client 127.0.0.1 8080" ++ [LF].

(** What [main] does with its arguments: it prints [out] and returns [code],
    or calls [start_server()], or calls [start_client(ip, port)]; after either
    call returns, [main] returns 0. *)
Inductive dispatch : Type :=
| Usage (code : Z) (out : list ascii)
| Serve
| Connect (ip : list ascii) (port : Z).

Global Instance dispatch_eq_dec : EqDecision dispatch.
Proof. solve_decision. Defined.

(** [main(argc, argv)], with [argc] the length of [argv].  With no argument
    at all [argv[0]] is a null pointer and [print_help] has no defined
    result. *)
Definition main (argv : list (list ascii)) : option dispatch :=
  let argc := length argv in
  prog ← argv !! 0;
  if decide (argc < 2) then Some (Usage 1 (print_help prog))
  else
    arg1 ← argv !! 1;
    if decide (arg1 = chars "-h" ∨ arg1 = chars "--help")
    then Some (Usage 0 (print_help prog))
    else if decide (arg1 = chars "server") then Some Serve
    else if decide (arg1 = chars "client") then
      if decide (argc ≠ 4) then Some (Usage 1 (print_help prog))
      else
        server_ip ← argv !! 2;
        arg3 ← argv !! 3;
        server_port ← atoi arg3;
        Some (Connect server_ip server_port)
    else
      Some (Usage 1 (chars "Invalid option. Use 'server' or 'client'." ++ [LF]
                     ++ print_help prog)).

End Main.

(** *** The rest of [src/client/client.c] *)

Module ClientProgram.
Import Server Client.

(** One turn of the loop of [receive_messages]: what was read is printed
    between two newlines; nothing is printed when [read] returns 0 or fails. *)
Definition receive_turn (r : read_result) : option (list event) :=
  let '(buffer, valread) := read_into (zeroed BUFFER_SIZE) r in
  if decide (0 < valread)%Z then
    text ← c_str buffer;
    Some [EvPrint (LF :: text ++ [LF])]
  else Some [].

(** [receive_messages] on the successive results of [read].  The loop has no
    exit: when the results run out the thread is blocked in [read]. *)
Fixpoint receive_messages (reads : list read_result) : option (list event) :=
  match reads with
  | [] => Some []
  | r :: reads' =>
      tr ← receive_turn r;
      tr' ← receive_messages reads';
      Some (tr ++ tr')
  end.

(** What [socket], [inet_pton] and [connect] return to [start_client]. *)
Record client_calls : Type :=
  { socket_result : Z; inet_pton_result : Z; connect_result : Z }.

(** The steps of [start_client]: the events of before, and the call
    [connect(sock, ...)] with the address and the port it is given. *)
Inductive client_step : Type :=
| Sys (e : event)
| SysConnect (sock : Z) (ip : list ascii) (port : Z).

Global Instance client_step_eq_dec : EqDecision client_step.
Proof. solve_decision. Defined.

(** How [start_client] ends: [exit(EXIT_FAILURE)], a [return] before the
    loop, the [return] after it, or not at all within the given turns. *)
Inductive client_end : Type :=
| SocketError | BadAddress | ConnectFailed | LoopLeft | StillRunning.

Global Instance client_end_eq_dec : EqDecision client_end.
Proof. solve_decision. Defined.

(** [htons(port)]: the [int] is converted to [uint16_t]. *)
Definition htons_port (port : Z) : Z := (port `mod` 2 ^ 16)%Z.

Definition log_generated (id : Z) : list ascii :=
  chars "[Client]: Generated client ID: " ++ fmt_d id ++ [LF].

Definition log_connected_to (ip : list ascii) : list ascii :=
  chars "[Info]: Connected to the server with IP: " ++ ip ++ [LF].

(** [start_client(ip, port)] as a whole.  The identity is drawn and printed,
    the socket created, the address converted, the connection made; then the
    send loop of [Client.start_client] runs.  The receiving thread runs beside
    it and is not part of this trace. *)
Definition start_client_program {rand_state : Type}
    (seed_state : Z → rand_state) (next_rand : rand_state → Z * rand_state)
    (g : rand_state) (now : Z) (calls : client_calls)
    (ip : list ascii) (port : Z) (fuel : nat) (stdin : list ascii)
    : option (list client_step * client_end) :=
  let '(id, _) := rand next_rand (srand seed_state now g) in
  let generated := Sys (EvPrint (log_generated id)) in
  let sock := socket_result calls in
  if decide (sock < 0)%Z then
    Some ([generated; Sys (EvPrint (chars "[Info]: Socket creation error"))],
          SocketError)
  else if decide (inet_pton_result calls ≤ 0)%Z then
    Some ([generated;
           Sys (EvPrint (LF :: chars "[Info]: Invalid address/Address not supported "
                         ++ [LF]))],
          BadAddress)
  else
    let connecting := SysConnect sock ip (htons_port port) in
    if decide (connect_result calls < 0)%Z then
      Some ([generated; connecting;
             Sys (EvPrint (LF :: chars "[Info]: Connection Failed " ++ [LF]))],
            ConnectFailed)
    else
      '(tr, ctl) ← start_client fuel sock stdin;
      Some ([generated; connecting; Sys (EvPrint (log_connected_to ip))]
            ++ (Sys <$> tr),
            match ctl with Break => LoopLeft | Continue => StillRunning end).

End ClientProgram.

(** *** The rest of [src/server/server.c] *)

Module ServerProgram.
Import Server.

(** What [socket], [bind], [getsockname] and [listen] return to
    [start_server], and the port [getsockname] reports. *)
Record listen_calls : Type :=
  { server_socket_result : Z; bind_result : Z; getsockname_result : Z;
    bound_port : Z; listen_result : Z }.

(** One turn of the accept loop: whether [malloc] gave memory, and what
    [accept] and [pthread_create] return. *)
Record accept_round : Type :=
  { malloc_ok : bool; accept_result : Z; pthread_create_result : Z }.

(** [exit(EXIT_FAILURE)], or blocked in [accept]. *)
Inductive server_end : Type := ServerExit | Accepting.

Global Instance server_end_eq_dec : EqDecision server_end.
Proof. solve_decision. Defined.

(** The accept loop.  The result lists the events and the sockets for which
    a [handle_client] thread was started.  There is no defined result when
    [malloc] returns a null pointer, which the loop writes through, or when
    [pthread_create] returns a positive error number, after which the loop
    detaches a thread that does not exist. *)
Fixpoint accept_loop (rounds : list accept_round)
    : option (list event * list Z) :=
  match rounds with
  | [] => Some ([], [])
  | r :: rounds' =>
      if malloc_ok r then
        if decide (accept_result r < 0)%Z then
          '(tr, started) ← accept_loop rounds';
          Some (EvPrint (chars "Accept failed") :: tr, started)
        else if decide (pthread_create_result r < 0)%Z then
          '(tr, started) ← accept_loop rounds';
          Some (EvPrint (chars "Could not create thread") :: tr, started)
        else if decide (pthread_create_result r = 0)%Z then
          '(tr, started) ← accept_loop rounds';
          Some (tr, accept_result r :: started)
        else None
      else None
  end.

Definition log_listening (port : Z) : list ascii :=
  chars "[Server]: listening on port " ++ fmt_d port ++ [LF].

(** [start_server()]. *)
Definition start_server (calls : listen_calls) (rounds : list accept_round)
    : option (list event * list Z * server_end) :=
  let server_fd := server_socket_result calls in
  if decide (server_fd = 0)%Z then
    Some ([EvPrint (chars "[Server]: Socket failed")], [], ServerExit)
  else if decide (bind_result calls < 0)%Z then
    Some ([EvPrint (chars "[Server]: Bind failed"); EvClose server_fd], [],
          ServerExit)
  else if decide (getsockname_result calls = -1)%Z then
    Some ([EvPrint (chars "[Server]: getsockname failed"); EvClose server_fd], [],
          ServerExit)
  else if decide (listen_result calls < 0)%Z then
    Some ([EvPrint (log_listening (bound_port calls));
           EvPrint (chars "Listen failed"); EvClose server_fd], [], ServerExit)
  else
    '(tr, started) ← accept_loop rounds;
    Some (EvPrint (log_listening (bound_port calls)) :: tr, started, Accepting).

(** The results of [read] on which the loop of [handle_client] is left:
    end of stream, or an error. *)
Definition read_ends (r : read_result) : bool :=
  match r with
  | ReadBytes [] => true
  | ReadBytes (_ :: _) => false
  | ReadFail => true
  end.

End ServerProgram.

(** ** The threads, call by call *)

(** The session threads share the generator behind [rand] and the array
    [client_sockets].  The mutex is held inside [add_client], [remove_client]
    and [broadcast_message] and nowhere else: between any two calls a thread
    makes on the shared state, calls of other threads can run.  Here a run is
    a schedule of single calls, each of them one of those [handle_client]
    makes. *)

Module Threads.
Import Server.

(** *** The generator *)

(** The calls on the generator, with the thread that makes them:
    [srand(time(NULL))] at server.c:71 and [rand()] at server.c:72. *)
Inductive generator_call : Type :=
| Srand (thread : nat) (now : Z)
| Rand (thread : nat).

Definition caller (c : generator_call) : nat :=
  match c with
  | Srand t _ => t
  | Rand t => t
  end.

#[global] Instance generator_call_eq_dec : EqDecision generator_call.
Proof. solve_decision. Defined.

(** The calls of one thread, in the order of the schedule. *)
Definition calls_of (t : nat) (schedule : list generator_call)
    : list generator_call :=
  filter (λ c, caller c = t) schedule.

(** The two calls of a session, in program order. *)
Definition session_calls (t : nat) (now : Z) : list generator_call :=
  [Srand t now; Rand t].

(** The identity of a thread: the number its call of [rand] returned. *)
Fixpoint identity_of (t : nat) (drawn : list (nat * Z)) : option Z :=
  match drawn with
  | [] => None
  | (t', id) :: drawn' => if decide (t' = t) then Some id else identity_of t drawn'
  end.

Section Generator.

Context {rand_state : Type}.
Variable seed_state : Z → rand_state.
Variable next_rand : rand_state → Z * rand_state.

(** The generator after the calls of a schedule. *)
Fixpoint generator_after (g : rand_state) (schedule : list generator_call)
    : rand_state :=
  match schedule with
  | [] => g
  | Srand _ now :: schedule' =>
      generator_after (srand seed_state now g) schedule'
  | Rand _ :: schedule' =>
      generator_after (rand next_rand g).2 schedule'
  end.

(** The numbers the calls of [rand] in a schedule return, each with the
    thread it is returned to. *)
Fixpoint draws (g : rand_state) (schedule : list generator_call)
    : list (nat * Z) :=
  match schedule with
  | [] => []
  | Srand _ now :: schedule' => draws (srand seed_state now g) schedule'
  | Rand t :: schedule' =>
      (t, (rand next_rand g).1) :: draws (rand next_rand g).2 schedule'
  end.

(** The first number drawn after seeding with the clock value. *)
Definition first_draw (now : Z) : Z :=
  (next_rand (seed_state (now mod 2 ^ 32)%Z)).1.

(** The identity as the specification words it: two sessions that seed the
    generator at the same clock value are given the same identity, however
    their calls are scheduled. *)
Definition identity_by_tick (g : rand_state) (t1 t2 : nat) (now : Z)
    (schedule : list generator_call) : Prop :=
  calls_of t1 schedule = session_calls t1 now →
  calls_of t2 schedule = session_calls t2 now →
  identity_of t1 (draws g schedule) = identity_of t2 (draws g schedule).

End Generator.

(** *** The registry and the sockets *)

(** The calls of [handle_client] that act on the registry or on a socket, and
    its prints: [add_client] (server.c:86), [broadcast_message] (server.c:104),
    [remove_client] (server.c:108) and [close] (server.c:110). *)
Inductive thread_call : Type :=
| AddClient (new_socket : Z)
| BroadcastMessage (sender : Z) (message : list ascii)
| RemoveClient (new_socket : Z)
| Close (new_socket : Z)
| Printf (text : list ascii).

Definition thread_step (cs : list Z) (c : thread_call)
    : option (list Z * list event) :=
  match c with
  | AddClient new_socket => Some (add_client cs new_socket, [EvLock; EvUnlock])
  | BroadcastMessage sender message =>
      sends ← broadcast_message cs sender message;
      Some (cs, sends)
  | RemoveClient new_socket =>
      Some (remove_client cs new_socket, [EvLock; EvUnlock])
  | Close new_socket => Some (cs, [EvClose new_socket])
  | Printf text => Some (cs, [EvPrint text])
  end.

(** A schedule of calls, of whatever threads, run on the registry. *)
Fixpoint thread_run (cs : list Z) (schedule : list thread_call)
    : option (list Z * list event) :=
  match schedule with
  | [] => Some (cs, [])
  | c :: schedule' =>
      '(cs1, tr) ← thread_step cs c;
      '(cs2, tr') ← thread_run cs1 schedule';
      Some (cs2, tr ++ tr')
  end.

(** The call registers socket [s]. *)
Definition adds (s : Z) (c : thread_call) : bool :=
  match c with
  | AddClient s' => bool_decide (s' = s)
  | _ => false
  end.

(** The calls of a session once its identity is drawn, up to the read loop
    (server.c:74-86). *)
Definition session_begin (client_info : client_info_t) (peer : peer_addr)
    : list thread_call :=
  [Printf (log_connected peer (client_id client_info));
   AddClient (sock client_info)].

(** The calls of a session from the [read] that returned [valread <= 0] on:
    the print and the [break] (server.c:94-97), then [remove_client]
    (server.c:108) and [close] (server.c:110). *)
Definition session_end (client_info : client_info_t) (peer : peer_addr)
    : list thread_call :=
  [Printf (log_disconnected peer (client_id client_info));
   RemoveClient (sock client_info);
   Close (sock client_info)].

(** The calls one result of [read] leads to (server.c:92-104).  Formatting the
    message is the thread's own work on its own buffers. *)
Definition turn_calls (client_info : client_info_t) (peer : peer_addr)
    (r : read_result) : option (list thread_call) :=
  let '(buffer, valread) := read_into (zeroed BUFFER_SIZE) r in
  if decide (valread ≤ 0)%Z then Some (session_end client_info peer)
  else
    text ← c_str buffer;
    let message_with_id :=
      snprintf (BUFFER_SIZE + 50) (tagged (client_id client_info) text) in
    Some [Printf (log_sent (client_id client_info) text);
          BroadcastMessage (sock client_info) message_with_id].

End Threads.

(** ** Facts about C strings *)

Module CStringFacts.

Lemma c_str_cons c a :
  c_str (c :: a) = if decide (c = NUL) then Some [] else (c ::.) <$> c_str a.
Proof.
  unfold c_str. simpl. case_decide; [done|].
  by destruct (strlen a).
Qed.

Lemma c_str_app_nul p rest : c_str (p ++ NUL :: rest) = Some (until_nul p).
Proof.
  induction p as [|c p IH]; simpl.
  - by rewrite c_str_cons, decide_True.
  - rewrite c_str_cons. case_decide; [done|]. by rewrite IH.
Qed.

Lemma strlen_app_nul p rest :
  NUL ∉ p → strlen (p ++ NUL :: rest) = Some (length p).
Proof.
  induction p as [|c p IH]; simpl; intros Hp; [done|].
  apply not_elem_of_cons in Hp as [? ?].
  rewrite decide_False by done. by rewrite IH.
Qed.

Lemma until_nul_id p : NUL ∉ p → until_nul p = p.
Proof.
  induction p as [|c p IH]; simpl; intros Hp; [done|].
  apply not_elem_of_cons in Hp as [? ?].
  rewrite decide_False by done. f_equal. by apply IH.
Qed.

Lemma until_nul_no_nul p : NUL ∉ until_nul p.
Proof.
  induction p as [|c p IH]; simpl; [apply not_elem_of_nil|].
  case_decide; [apply not_elem_of_nil|].
  apply not_elem_of_cons. split; [congruence|done].
Qed.

Lemma until_nul_length p : length (until_nul p) ≤ length p.
Proof.
  induction p as [|c p IH]; simpl; [done|]. case_decide; simpl; lia.
Qed.

Lemma zeroed_length n : length (zeroed n) = n.
Proof. apply length_replicate. Qed.

Lemma store_zeroed d n :
  length d ≤ n → store d (zeroed n) = d ++ replicate (n - length d) NUL.
Proof.
  intros Hd. unfold store, zeroed.
  rewrite length_replicate, drop_replicate.
  rewrite take_app_ge by lia. f_equal.
  apply take_ge. rewrite length_replicate. lia.
Qed.

Lemma store_zeroed_nul d n :
  length d < n →
  store d (zeroed n) = d ++ NUL :: replicate (n - length d - 1) NUL.
Proof.
  intros Hd. rewrite store_zeroed by lia.
  assert (n - length d = S (n - length d - 1)) as Heq by lia.
  rewrite Heq at 1. done.
Qed.

Lemma snprintf_fits size text :
  length text < size → snprintf size text = text ++ [NUL].
Proof. intros H. unfold snprintf. rewrite take_ge by lia. done. Qed.

Lemma strlen_snprintf size text : is_Some (strlen (snprintf size text)).
Proof.
  unfold snprintf. induction (take (size - 1) text) as [|c p IH]; simpl.
  - by eexists.
  - case_decide; [by eexists|]. destruct IH as [n ->]. by eexists.
Qed.

Lemma chars_length s : length (chars s) = String.length s.
Proof. induction s as [|c s IH]; simpl; [done|]. by f_equal. Qed.

Lemma chars_app s1 s2 : chars (s1 +:+ s2) = chars s1 ++ chars s2.
Proof. induction s1 as [|c s1 IH]; simpl; [done|]. by f_equal. Qed.

(** *** The digits of [%d] *)

Lemma pretty_N_char_not_nul x : pretty_N_char x ≠ NUL.
Proof. unfold pretty_N_char. by repeat case_match. Qed.

Lemma pretty_N_go_no_nul x s :
  NUL ∉ chars s → NUL ∉ chars (pretty_N_go x s).
Proof.
  revert s. induction (N.lt_wf_0 x) as [x _ IH]; intros s Hs.
  destruct (decide (x = 0%N)) as [->|Hx]; [by rewrite pretty_N_go_0|].
  rewrite pretty_N_go_step by lia. apply IH.
  - apply N.div_lt; lia.
  - simpl. apply not_elem_of_cons. split; [|done].
    intros H. by apply (pretty_N_char_not_nul (x `mod` 10)%N).
Qed.

Lemma pretty_N_go_length (k : nat) x s :
  (x < 10 ^ N.of_nat k)%N →
  String.length (pretty_N_go x s) ≤ k + String.length s.
Proof.
  revert x s. induction k as [|k IH]; intros x s Hx.
  - assert (x = 0%N) as -> by (simpl in Hx; lia). by rewrite pretty_N_go_0.
  - destruct (decide (x = 0%N)) as [->|Hx0].
    { rewrite pretty_N_go_0. lia. }
    rewrite pretty_N_go_step by lia.
    etrans; [apply IH|simpl; lia].
    apply N.Div0.div_lt_upper_bound.
    rewrite Nat2N.inj_succ, N.pow_succ_r' in Hx. lia.
Qed.

Lemma fmt_d_no_nul z : NUL ∉ fmt_d z.
Proof.
  unfold fmt_d, pretty, pretty_Z.
  assert (∀ p : positive, NUL ∉ chars (pretty p)) as Hp.
  { intros p. unfold pretty, pretty_positive, pretty, pretty_N.
    rewrite decide_False by done. apply pretty_N_go_no_nul. apply not_elem_of_nil. }
  destruct z as [|p|p].
  - by apply (bool_decide_unpack (NUL ∉ _)).
  - apply Hp.
  - rewrite chars_app. apply not_elem_of_app. split; [|apply Hp].
    by apply (bool_decide_unpack (NUL ∉ _)).
Qed.

Lemma fmt_d_length z : int_range z → length (fmt_d z) ≤ 11.
Proof.
  unfold int_range, fmt_d, pretty, pretty_Z. intros Hz.
  assert (∀ p : positive, (Z.pos p ≤ 2 ^ 31)%Z →
            String.length (pretty p) ≤ 10) as Hp.
  { intros p Hle. unfold pretty, pretty_positive, pretty, pretty_N.
    rewrite decide_False by done.
    etrans; [apply (pretty_N_go_length 10)|simpl; lia].
    change (10 ^ N.of_nat 10)%N with 10000000000%N.
    change (2 ^ 31)%Z with 2147483648%Z in Hle. lia. }
  rewrite chars_length. destruct z as [|p|p].
  - simpl. lia.
  - etrans; [apply Hp|]; lia.
  - change (String.length ("-" +:+ pretty p)) with (S (String.length (pretty p))).
    specialize (Hp p). lia.
Qed.

End CStringFacts.

(** ** Facts about the registry *)

Module RegistryFacts.
Import Server.


Lemma add_client_loop_ge n i cs s :
  length cs ≤ i → add_client_loop n i cs s = cs.
Proof.
  revert i. induction n as [|n IH]; intros i Hi; simpl; [done|].
  rewrite (lookup_ge_None_2 cs i) by lia.
  case_decide; [done|]. apply IH. lia.
Qed.

Lemma add_client_loop_app n pre suf s :
  length suf ≤ n →
  add_client_loop n (length pre) (pre ++ suf) s = pre ++ add_first suf s.
Proof.
  revert pre suf. induction n as [|n IH]; intros pre suf Hn.
  - destruct suf; simpl in *; [done|lia].
  - destruct suf as [|c suf]; simpl.
    + rewrite lookup_ge_None_2 by (rewrite length_app; simpl; lia).
      case_decide; [done|].
      apply add_client_loop_ge. rewrite length_app. simpl. lia.
    + rewrite list_lookup_middle by done.
      destruct (decide (c = 0%Z)) as [->|Hc].
      * rewrite decide_True by done.
        replace (length pre) with (length pre + 0) by lia.
        by rewrite insert_app_r.
      * rewrite decide_False by congruence.
        specialize (IH (pre ++ [c]) suf).
        rewrite length_app, <-app_assoc in IH. simpl in IH.
        rewrite Nat.add_1_r in IH. rewrite IH by (simpl in Hn; lia).
        by rewrite <-app_assoc.
Qed.

Lemma add_client_add_first cs s :
  length cs ≤ MAX_CLIENTS → add_client cs s = add_first cs s.
Proof. intros H. apply (add_client_loop_app MAX_CLIENTS [] cs s H). Qed.

Lemma remove_client_loop_ge n i cs s :
  length cs ≤ i → remove_client_loop n i cs s = cs.
Proof.
  revert i. induction n as [|n IH]; intros i Hi; simpl; [done|].
  rewrite (lookup_ge_None_2 cs i) by lia.
  case_decide; [done|]. apply IH. lia.
Qed.

Lemma remove_client_loop_app n pre suf s :
  length suf ≤ n →
  remove_client_loop n (length pre) (pre ++ suf) s = pre ++ remove_first suf s.
Proof.
  revert pre suf. induction n as [|n IH]; intros pre suf Hn.
  - destruct suf; simpl in *; [done|lia].
  - destruct suf as [|c suf]; simpl.
    + rewrite lookup_ge_None_2 by (rewrite length_app; simpl; lia).
      case_decide; [done|].
      apply remove_client_loop_ge. rewrite length_app. simpl. lia.
    + rewrite list_lookup_middle by done.
      destruct (decide (c = s)) as [->|Hc].
      * rewrite decide_True by done.
        replace (length pre) with (length pre + 0) by lia.
        by rewrite insert_app_r.
      * rewrite decide_False by congruence.
        specialize (IH (pre ++ [c]) suf).
        rewrite length_app, <-app_assoc in IH. simpl in IH.
        rewrite Nat.add_1_r in IH. rewrite IH by (simpl in Hn; lia).
        by rewrite <-app_assoc.
Qed.

Lemma remove_client_remove_first cs s :
  length cs ≤ MAX_CLIENTS → remove_client cs s = remove_first cs s.
Proof. intros H. apply (remove_client_loop_app MAX_CLIENTS [] cs s H). Qed.

Lemma broadcast_loop_ge n i cs sender message :
  length cs ≤ i → broadcast_loop n i cs sender message = Some [].
Proof.
  revert i. induction n as [|n IH]; intros i Hi; simpl; [done|].
  rewrite (lookup_ge_None_2 cs i) by lia. apply IH. lia.
Qed.

Lemma broadcast_loop_app n pre suf sender message len :
  length suf ≤ n →
  strlen message = Some len →
  broadcast_loop n (length pre) (pre ++ suf) sender message
  = Some ((λ c, EvSend c (take len message)) <$> targets suf sender).
Proof.
  intros Hn Hlen. revert pre suf Hn.
  induction n as [|n IH]; intros pre suf Hn.
  - destruct suf; simpl in *; [done|lia].
  - destruct suf as [|c suf]; simpl.
    + rewrite lookup_ge_None_2 by (rewrite length_app; simpl; lia).
      apply broadcast_loop_ge. rewrite length_app. simpl. lia.
    + rewrite list_lookup_middle by done.
      specialize (IH (pre ++ [c]) suf).
      rewrite length_app, <-app_assoc in IH. simpl in IH.
      rewrite Nat.add_1_r in IH. unfold targets. rewrite filter_cons.
      case_decide.
      * rewrite Hlen. simpl. rewrite IH by (simpl in Hn; lia). done.
      * rewrite IH by (simpl in Hn; lia). done.
Qed.

Lemma broadcast_message_targets cs sender message len :
  length cs ≤ MAX_CLIENTS →
  strlen message = Some len →
  broadcast_message cs sender message
  = Some (EvLock :: ((λ c, EvSend c (take len message)) <$> targets cs sender)
          ++ [EvUnlock]).
Proof.
  intros Hcs Hlen. unfold broadcast_message.
  change (broadcast_loop MAX_CLIENTS 0 cs sender message)
    with (broadcast_loop MAX_CLIENTS (length (@nil Z)) ([] ++ cs) sender message).
  by rewrite (broadcast_loop_app MAX_CLIENTS [] cs sender message len Hcs Hlen).
Qed.

Lemma recipients_app tr1 tr2 :
  recipients (tr1 ++ tr2) = recipients tr1 ++ recipients tr2.
Proof. unfold recipients. apply omap_app. Qed.

Lemma recipients_sends (l : list Z) (d : list ascii) :
  recipients ((λ c, EvSend c d) <$> l) = l.
Proof. induction l as [|c l IH]; simpl; [done|]. by f_equal. Qed.

Lemma Snapshot_targets cs h :
  length cs ≤ MAX_CLIENTS → Snapshot cs h = targets cs h.
Proof.
  intros Hcs. unfold Snapshot.
  rewrite (broadcast_message_targets cs h [NUL] 0 Hcs) by done.
  simpl. rewrite recipients_app, recipients_sends. simpl. apply app_nil_r.
Qed.

Lemma targets_members cs h : targets cs h = filter (λ c, c ≠ h) (members cs).
Proof.
  unfold targets, members. rewrite list_filter_filter.
  apply list_filter_iff. intros x. tauto.
Qed.

(** *** Length of the array *)

Lemma add_first_length cs s : length (add_first cs s) = length cs.
Proof. induction cs as [|c cs IH]; simpl; [done|]. case_decide; simpl; lia. Qed.

Lemma remove_first_length cs s : length (remove_first cs s) = length cs.
Proof. induction cs as [|c cs IH]; simpl; [done|]. case_decide; simpl; lia. Qed.

Lemma add_client_loop_length n i cs s :
  length (add_client_loop n i cs s) = length cs.
Proof.
  revert i. induction n as [|n IH]; intros i; simpl; [done|].
  case_decide; [apply length_insert|apply IH].
Qed.

Lemma remove_client_loop_length n i cs s :
  length (remove_client_loop n i cs s) = length cs.
Proof.
  revert i. induction n as [|n IH]; intros i; simpl; [done|].
  case_decide; [apply length_insert|apply IH].
Qed.

Lemma apply_op_length cs o : length (apply_op cs o) = length cs.
Proof.
  destruct o; simpl; [apply add_client_loop_length|apply remove_client_loop_length].
Qed.

Lemma run_from_length cs ops : length (run_from cs ops) = length cs.
Proof.
  revert cs. induction ops as [|o ops IH]; intros cs; simpl; [done|].
  unfold run_from in IH. rewrite IH. apply apply_op_length.
Qed.

Lemma run_ops_length ops : length (run_ops ops) = MAX_CLIENTS.
Proof. unfold run_ops. by rewrite run_from_length. Qed.

Lemma slots_of_cons c cs h :
  slots_of (c :: cs) h = (if decide (c = h) then 1 else 0) + slots_of cs h.
Proof. unfold slots_of. rewrite filter_cons. by case_decide. Qed.

Lemma slots_of_pos cs h : h ∈ cs ↔ 0 < slots_of cs h.
Proof.
  induction cs as [|c cs IH].
  - split; [by intros ?%elem_of_nil|unfold slots_of; simpl; lia].
  - rewrite slots_of_cons, elem_of_cons, IH.
    case_decide; [split; [lia|by left]|].
    split; [intros [?|?]; [congruence|lia]|intros ?; right; lia].
Qed.

Lemma slots_of_add_first cs s h :
  h ≠ 0%Z →
  slots_of (add_first cs s) h
  = if decide (s = h ∧ 0%Z ∈ cs) then S (slots_of cs h) else slots_of cs h.
Proof.
  intros Hh. induction cs as [|c cs IH]; simpl.
  - rewrite decide_False; [done|]. intros [_ ?%elem_of_nil]. done.
  - destruct (decide (c = 0%Z)) as [->|Hc].
    + clear IH. rewrite !slots_of_cons.
      rewrite (decide_False (P := 0%Z = h)) by done.
      assert (0%Z ∈ 0%Z :: cs) as Hin by (by left).
      destruct (decide (s = h)) as [Hs|Hs];
        destruct (decide (s = h ∧ 0%Z ∈ 0%Z :: cs)) as [Hy|Hn];
        try lia; exfalso; tauto.
    + rewrite !slots_of_cons, IH.
      assert (0%Z ∈ c :: cs ↔ 0%Z ∈ cs) as Hiff.
      { rewrite elem_of_cons. split; [intros [?|?]; [congruence|done]|by right]. }
      destruct (decide (s = h ∧ 0%Z ∈ cs)) as [Hy|Hn];
        destruct (decide (s = h ∧ 0%Z ∈ c :: cs)) as [Hy'|Hn'];
        try lia; exfalso; tauto.
Qed.

Lemma slots_of_remove_first cs s h :
  h ≠ 0%Z →
  slots_of (remove_first cs s) h
  = if decide (s = h) then pred (slots_of cs h) else slots_of cs h.
Proof.
  intros Hh. induction cs as [|c cs IH]; simpl.
  - by case_decide.
  - destruct (decide (c = s)) as [->|Hc].
    + rewrite !slots_of_cons. rewrite (decide_False (P := 0%Z = h)) by done.
      case_decide; simpl; lia.
    + rewrite !slots_of_cons, IH.
      destruct (decide (s = h)) as [->|Hn]; [|done].
      rewrite decide_False by done. simpl. done.
Qed.

Lemma add_first_id cs s : add_first cs s = cs ↔ s = 0%Z ∨ 0%Z ∉ cs.
Proof.
  induction cs as [|c cs IH]; simpl.
  - split; [intros _; right; apply not_elem_of_nil|done].
  - destruct (decide (c = 0%Z)) as [->|Hc].
    + split.
      * intros [= ->]. by left.
      * intros [->|Hn]; [done|]. exfalso. apply Hn. by left.
    + split.
      * intros [= H]. apply IH in H as [?|Hn]; [by left|right].
        intros [?|?]%elem_of_cons; [congruence|done].
      * intros H. f_equal. apply IH. destruct H as [?|Hn]; [by left|right].
        intros ?. apply Hn. by right.
Qed.

Lemma remove_first_absent cs s : s ∉ cs → remove_first cs s = cs.
Proof.
  induction cs as [|c cs IH]; simpl; [done|].
  intros Hn. apply not_elem_of_cons in Hn as [? ?].
  rewrite decide_False by done. f_equal. by apply IH.
Qed.

Lemma remove_first_zero cs : remove_first cs 0%Z = cs.
Proof.
  induction cs as [|c cs IH]; simpl; [done|].
  case_decide; [by subst|by f_equal].
Qed.

Lemma remove_first_changes cs s : s ≠ 0%Z → s ∈ cs → remove_first cs s ≠ cs.
Proof.
  intros Hs. induction cs as [|c cs IH]; simpl.
  - by intros ?%elem_of_nil.
  - intros Hin. destruct (decide (c = s)) as [->|Hc].
    + intros [= ?]. congruence.
    + apply elem_of_cons in Hin as [?|Hin]; [congruence|].
      intros [= ?]. by apply IH.
Qed.

(** The scans never look past the array, whatever the state. *)

Lemma add_client_loop_full n i cs s :
  0%Z ∉ cs → add_client_loop n i cs s = cs.
Proof.
  intros Hfull. revert i. induction n as [|n IH]; intros i; simpl; [done|].
  case_decide as Hi; [|apply IH].
  exfalso. apply Hfull. by eapply list_elem_of_lookup_2.
Qed.

Lemma add_client_loop_zero n i cs : add_client_loop n i cs 0%Z = cs.
Proof.
  revert i. induction n as [|n IH]; intros i; simpl; [done|].
  case_decide as Hi; [|apply IH]. by apply list_insert_id.
Qed.

Lemma remove_client_loop_absent n i cs s :
  s ∉ cs → remove_client_loop n i cs s = cs.
Proof.
  intros Hs. revert i. induction n as [|n IH]; intros i; simpl; [done|].
  case_decide as Hi; [|apply IH].
  exfalso. apply Hs. by eapply list_elem_of_lookup_2.
Qed.

Lemma remove_client_loop_zero n i cs : remove_client_loop n i cs 0%Z = cs.
Proof.
  revert i. induction n as [|n IH]; intros i; simpl; [done|].
  case_decide as Hi; [|apply IH]. by apply list_insert_id.
Qed.

(** *** Sequences of operations *)

Lemma run_from_snoc cs ops o :
  run_from cs (ops ++ [o]) = apply_op (run_from cs ops) o.
Proof. unfold run_from. apply foldl_snoc. Qed.

Lemma run_ops_snoc ops o : run_ops (ops ++ [o]) = apply_op (run_ops ops) o.
Proof. apply run_from_snoc. Qed.

Lemma adds_ok_snoc ok cs ops o :
  adds_ok ok cs (ops ++ [o])
  = adds_ok ok cs ops
    && (match o with Add x => ok (run_from cs ops) x | Remove _ => true end).
Proof.
  revert cs. induction ops as [|o' ops IH]; intros cs; simpl.
  - by rewrite andb_true_r.
  - rewrite IH. by rewrite andb_assoc.
Qed.

Lemma apply_op_first cs o :
  length cs ≤ MAX_CLIENTS →
  apply_op cs o
  = match o with Add h => add_first cs h | Remove h => remove_first cs h end.
Proof.
  intros H. destruct o; simpl;
    [by apply add_client_add_first|by apply remove_client_remove_first].
Qed.

Lemma run_ops_wf ops : length (run_ops ops) ≤ MAX_CLIENTS.
Proof. by rewrite run_ops_length. Qed.

Lemma added_not_removed_nil x : ¬ added_not_removed [] x.
Proof. intros (pre & post & H & _). by destruct pre. Qed.

Lemma added_not_removed_snoc_add ops y x :
  added_not_removed (ops ++ [Add y]) x ↔ x = y ∨ added_not_removed ops x.
Proof.
  split.
  - intros (pre & post & Heq & Hn).
    destruct post as [|o post _] using rev_ind.
    + apply app_inj_tail in Heq as [_ [= ->]]. by left.
    + right. rewrite app_comm_cons, app_assoc in Heq.
      apply app_inj_tail in Heq as [-> <-].
      exists pre, post. split; [done|].
      intros Hin. apply Hn. apply elem_of_app. by left.
  - intros [->|(pre & post & -> & Hn)].
    + exists ops, []. split; [done|]. apply not_elem_of_nil.
    + exists pre, (post ++ [Add y]). split; [by rewrite <-app_assoc|].
      intros [?|Hin]%elem_of_app; [done|].
      apply list_elem_of_singleton in Hin. done.
Qed.

Lemma added_not_removed_snoc_remove ops y x :
  added_not_removed (ops ++ [Remove y]) x ↔ x ≠ y ∧ added_not_removed ops x.
Proof.
  split.
  - intros (pre & post & Heq & Hn).
    destruct post as [|o post _] using rev_ind.
    + apply app_inj_tail in Heq as [_ [=]].
    + rewrite app_comm_cons, app_assoc in Heq.
      apply app_inj_tail in Heq as [-> <-]. split.
      * intros ->. apply Hn. apply elem_of_app. right. by left.
      * exists pre, post. split; [done|].
        intros Hin. apply Hn. apply elem_of_app. by left.
  - intros [Hxy (pre & post & -> & Hn)].
    exists pre, (post ++ [Remove y]). split; [by rewrite <-app_assoc|].
    intros [?|Hin]%elem_of_app; [done|].
    apply list_elem_of_singleton in Hin. congruence.
Qed.

Lemma fits_fresh cs x : fits cs x = true → fresh cs x = true.
Proof.
  unfold fits, fresh. rewrite !bool_decide_eq_true. tauto.
Qed.

Lemma adds_ok_mono (ok1 ok2 : list Z → Z → bool) cs ops :
  (∀ cs x, ok1 cs x = true → ok2 cs x = true) →
  adds_ok ok1 cs ops = true → adds_ok ok2 cs ops = true.
Proof.
  intros Hok. revert cs. induction ops as [|o ops IH]; intros cs; simpl; [done|].
  rewrite !andb_true_iff. intros [H1 H2]. split; [|by apply IH].
  destruct o; [by apply Hok|done].
Qed.

(** With fresh handles only, no handle is stored twice. *)
Lemma fresh_slots_of ops h :
  h ≠ 0%Z →
  adds_ok fresh init_sockets ops = true →
  slots_of (run_ops ops) h ≤ 1.
Proof.
  intros Hh. induction ops as [|o ops IH] using rev_ind; intros Hok.
  - assert (h ∉ run_ops []) as Hn.
    { change (run_ops []) with (replicate MAX_CLIENTS 0%Z).
      intros ?%elem_of_replicate. naive_solver. }
    rewrite slots_of_pos in Hn. lia.
  - rewrite adds_ok_snoc, andb_true_iff in Hok. destruct Hok as [Hok Ho].
    specialize (IH Hok). rewrite run_ops_snoc, apply_op_first by apply run_ops_wf.
    destruct o as [y|y].
    + rewrite slots_of_add_first by done. case_decide as Hy; [|done].
      destruct Hy as [-> _]. unfold fresh in Ho.
      apply bool_decide_eq_true in Ho. fold (run_ops ops) in Ho.
      rewrite slots_of_pos in Ho. lia.
    + rewrite slots_of_remove_first by done. case_decide; lia.
Qed.

(** With new non-zero handles added while a slot is free, the occupied slots
    hold exactly the handles added and not removed since. *)
Lemma fits_members ops x :
  adds_ok fits init_sockets ops = true →
  (x ≠ 0%Z ∧ x ∈ run_ops ops) ↔ added_not_removed ops x.
Proof.
  induction ops as [|o ops IH] using rev_ind; intros Hok.
  - split; [|by intros ?%added_not_removed_nil].
    intros [Hx Hin]. change (run_ops []) with (replicate MAX_CLIENTS 0%Z) in Hin.
    apply elem_of_replicate in Hin. naive_solver.
  - rewrite adds_ok_snoc, andb_true_iff in Hok. destruct Hok as [Hok Ho].
    specialize (IH Hok).
    pose proof (fresh_slots_of ops x) as Hone.
    rewrite run_ops_snoc, apply_op_first by apply run_ops_wf.
    destruct o as [y|y].
    + rewrite added_not_removed_snoc_add, <-IH.
      unfold fits in Ho. apply bool_decide_eq_true in Ho.
      fold (run_ops ops) in Ho. destruct Ho as (Hy & Hfresh & Hfree).
      destruct (decide (x = 0%Z)) as [->|Hx]; [naive_solver|].
      rewrite !slots_of_pos, slots_of_add_first by done.
      case_decide; naive_solver lia.
    + rewrite added_not_removed_snoc_remove, <-IH.
      destruct (decide (x = 0%Z)) as [->|Hx]; [naive_solver|].
      specialize (Hone Hx (adds_ok_mono _ _ _ _ fits_fresh Hok)).
      rewrite !slots_of_pos, slots_of_remove_first by done.
      case_decide; naive_solver lia.
Qed.

Lemma slots_of_NoDup cs :
  (∀ h, h ≠ 0%Z → slots_of cs h ≤ 1) → NoDup (members cs).
Proof.
  induction cs as [|c cs IH]; intros H.
  - constructor.
  - unfold members in *. rewrite filter_cons.
    assert (∀ h, h ≠ 0%Z → slots_of cs h ≤ 1) as H'.
    { intros h Hh. specialize (H h Hh). rewrite slots_of_cons in H. lia. }
    case_decide as Hc; [|by apply IH].
    apply NoDup_cons. split; [|by apply IH].
    intros [_ Hin]%list_elem_of_filter. apply slots_of_pos in Hin.
    specialize (H c Hc). rewrite slots_of_cons, decide_True in H by done. lia.
Qed.

(** *** The claims about the registry *)

Lemma Snapshot_run_ops ops h :
  Snapshot (run_ops ops) h = filter (λ c, c ≠ h) (members (run_ops ops)).
Proof. rewrite Snapshot_targets by apply run_ops_wf. apply targets_members. Qed.

(** C1, as the code has it.  After every sequence of Add and Remove,
    [Snapshot(excluding: h)] does not contain [h].  When every Add of the
    sequence registers a non-zero handle that is not registered at that
    moment, and finds a free slot, the snapshot has no repeated entry and
    holds exactly the handles other than [h] that were added and not removed
    afterwards. *)
Theorem snapshot_of_fitting_adds (ops : list op) (h : Z) :
  (h ∉ Snapshot (run_ops ops) h)
  ∧ (adds_ok fits init_sockets ops = true → snapshot_exact ops h).
Proof.
  assert (h ∉ Snapshot (run_ops ops) h) as Hh.
  { rewrite Snapshot_run_ops. intros [? _]%list_elem_of_filter. done. }
  split; [done|]. intros Hok. split; [done|]. split.
  - rewrite Snapshot_run_ops. apply NoDup_filter, slots_of_NoDup.
    intros x Hx. apply fresh_slots_of; [done|].
    by apply (adds_ok_mono fits fresh _ _ fits_fresh).
  - intros x. rewrite Snapshot_run_ops, <-(fits_members ops x Hok).
    unfold members. rewrite !list_elem_of_filter. tauto.
Qed.

Lemma snapshot_of_fitting_adds_witness :
  adds_ok fits init_sockets [Add 5; Add 6; Remove 5]%Z = true
  ∧ snapshot_exact [Add 5; Add 6; Remove 5]%Z 7%Z.
Proof.
  split; [reflexivity|].
  apply (snapshot_of_fitting_adds [Add 5; Add 6; Remove 5]%Z 7%Z). reflexivity.
Defined.

(** C1 as worded fails on the code: a handle added twice is listed twice; the
    eleventh handle added is not listed; and handle 0, once added, is not
    listed either. *)
Lemma snapshot_exact_counterexample :
  ¬ snapshot_exact [Add 5; Add 5]%Z 7%Z
  ∧ ¬ snapshot_exact (Add <$> [1; 2; 3; 4; 5; 6; 7; 8; 9; 10; 11]%Z) 0%Z
  ∧ ¬ snapshot_exact [Add 0%Z] 7%Z.
Proof.
  split; [|split].
  - intros (_ & Hnd & _).
    assert (Snapshot (run_ops [Add 5; Add 5]%Z) 7%Z = [5; 5]%Z) as Hs
      by (vm_compute; reflexivity).
    rewrite Hs in Hnd. apply NoDup_cons in Hnd as [Hn _]. apply Hn. by left.
  - intros (_ & _ & Hx). specialize (Hx 11%Z).
    assert (Snapshot (run_ops (Add <$> [1; 2; 3; 4; 5; 6; 7; 8; 9; 10; 11]%Z)) 0%Z
            = [1; 2; 3; 4; 5; 6; 7; 8; 9; 10]%Z) as Hs by (vm_compute; reflexivity).
    rewrite Hs in Hx. destruct Hx as [_ Hx].
    assert (11%Z ∈ [1; 2; 3; 4; 5; 6; 7; 8; 9; 10]%Z) as Hin.
    { apply Hx. split; [done|].
      exists (Add <$> [1; 2; 3; 4; 5; 6; 7; 8; 9; 10]%Z), [].
      split; [reflexivity|apply not_elem_of_nil]. }
    revert Hin. apply (bool_decide_unpack (11%Z ∉ _)). vm_compute. exact I.
  - intros (_ & _ & Hx). specialize (Hx 0%Z).
    assert (Snapshot (run_ops [Add 0%Z]) 7%Z = []) as Hs by (vm_compute; reflexivity).
    rewrite Hs in Hx. destruct Hx as [_ Hx].
    assert (0%Z ∈ @nil Z) as Hin.
    { apply Hx. split; [done|]. exists [], [].
      split; [reflexivity|apply not_elem_of_nil]. }
    by apply elem_of_nil in Hin.
Qed.

(** C4.  When every slot is occupied, [add_client] returns the array as it
    was; the function has no result through which an error could be
    reported. *)
Theorem add_client_at_capacity (cs : list Z) (h : Z) :
  0%Z ∉ cs → add_client cs h = cs.
Proof. apply add_client_loop_full. Qed.

Lemma add_client_at_capacity_witness :
  (0%Z ∉ [1; 2; 3; 4; 5; 6; 7; 8; 9; 10]%Z)
  ∧ add_client [1; 2; 3; 4; 5; 6; 7; 8; 9; 10]%Z 11%Z
    = [1; 2; 3; 4; 5; 6; 7; 8; 9; 10]%Z.
Proof.
  assert (0%Z ∉ [1; 2; 3; 4; 5; 6; 7; 8; 9; 10]%Z) as H.
  { apply (bool_decide_unpack (0%Z ∉ _)). vm_compute. exact I. }
  split; [exact H|]. exact (add_client_at_capacity _ 11%Z H).
Defined.

(** C5, as the code has it.  As long as no Add names a handle that is
    registered at that moment (Add 0 names none), every non-zero handle is in
    at most one slot.
    [add_client] does not look for the handle: adding a registered handle
    leaves the array unchanged only when no slot is free, and otherwise
    stores it in one more slot. *)
Theorem fresh_adds_stored_once (ops : list op) (h : Z) :
  h ≠ 0%Z →
  (adds_ok fresh init_sockets ops = true → slots_of (run_ops ops) h ≤ 1)
  ∧ (h ∈ run_ops ops →
     (0%Z ∉ run_ops ops → add_client (run_ops ops) h = run_ops ops)
     ∧ (0%Z ∈ run_ops ops →
        slots_of (add_client (run_ops ops) h) h = S (slots_of (run_ops ops) h))).
Proof.
  intros Hh. split; [by apply fresh_slots_of|].
  intros Hin. split; [apply add_client_loop_full|].
  intros Hfree. rewrite add_client_add_first by apply run_ops_wf.
  rewrite slots_of_add_first by done. by rewrite decide_True.
Qed.

Lemma fresh_adds_stored_once_witness :
  adds_ok fresh init_sockets [Add 5; Add 0; Remove 5; Add 5]%Z = true
  ∧ slots_of (run_ops [Add 5; Add 0; Remove 5; Add 5]%Z) 5%Z ≤ 1
  ∧ slots_of (add_client (run_ops [Add 5; Add 0; Remove 5; Add 5]%Z) 5%Z) 5%Z
    = S (slots_of (run_ops [Add 5; Add 0; Remove 5; Add 5]%Z) 5%Z).
Proof.
  destruct (fresh_adds_stored_once [Add 5; Add 0; Remove 5; Add 5]%Z 5%Z)
    as [Hone Hagain]; [discriminate|].
  split; [reflexivity|]. split; [apply Hone; reflexivity|].
  apply Hagain.
  - apply (bool_decide_unpack (5%Z ∈ _)). vm_compute. exact I.
  - apply (bool_decide_unpack (0%Z ∈ _)). vm_compute. exact I.
Defined.

(** C5 as worded fails on the code: after Add 5, Add 5 the handle 5 is in two
    slots, and the second Add changed a registry that held 5 already. *)
Lemma stored_once_counterexample :
  ¬ stored_once [Add 5; Add 5]%Z 5%Z ∧ ¬ stored_once [Add 5%Z] 5%Z.
Proof.
  split.
  - intros [H _]. vm_compute in H. lia.
  - intros [_ H].
    assert (5%Z ∈ run_ops [Add 5%Z]) as Hin.
    { apply (bool_decide_unpack (5%Z ∈ _)). vm_compute. exact I. }
    specialize (H Hin). vm_compute in H. discriminate H.
Qed.

(** C6, as the code has it.  [remove_client] on a socket that is in no slot
    returns the array as it was.  It empties the first slot holding the
    socket only, and every other slot keeps what it held: a second Remove of
    a non-zero handle changes nothing more exactly when the handle was in at
    most one slot. *)
Theorem remove_client_twice (cs : list Z) (h : Z) :
  (h ∉ cs → remove_client cs h = cs)
  ∧ (length cs = MAX_CLIENTS →
     (remove_client (remove_client cs h) h = remove_client cs h
      ↔ h = 0%Z ∨ slots_of cs h ≤ 1))
  ∧ (∀ pre suf, length cs = MAX_CLIENTS → cs = pre ++ h :: suf → h ∉ pre →
       remove_client cs h = pre ++ 0%Z :: suf).
Proof.
  split; [apply remove_client_loop_absent|]. split; cycle 1.
  { intros pre suf Hlen -> Hpre. rewrite remove_client_remove_first by lia.
    clear Hlen. induction pre as [|c pre IH]; simpl.
    - by rewrite decide_True.
    - apply not_elem_of_cons in Hpre as [Hc Hpre].
      rewrite decide_False by done. f_equal. by apply IH. }
  intros Hlen.
  rewrite (remove_client_remove_first cs) by lia.
  rewrite remove_client_remove_first by (rewrite remove_first_length; lia).
  destruct (decide (h = 0%Z)) as [->|Hh].
  { rewrite !remove_first_zero. split; [by left|done]. }
  pose proof (slots_of_remove_first cs h h Hh) as Hcount.
  rewrite decide_True in Hcount by done.
  destruct (decide (h ∈ remove_first cs h)) as [Hin|Hout].
  - split.
    + intros Heq. by apply remove_first_changes in Heq.
    + intros [?|Hle]; [done|]. apply slots_of_pos in Hin. lia.
  - split.
    + intros _. right. rewrite slots_of_pos in Hout. lia.
    + intros _. by apply remove_first_absent.
Qed.

Lemma remove_client_twice_witness :
  remove_client (run_ops [Add 5; Add 6]%Z) 7%Z = run_ops [Add 5; Add 6]%Z
  ∧ remove_client (remove_client (run_ops [Add 5; Add 6]%Z) 5%Z) 5%Z
    = remove_client (run_ops [Add 5; Add 6]%Z) 5%Z
  ∧ remove_client (run_ops [Add 6; Add 5; Add 5]%Z) 5%Z
    = [6%Z] ++ 0%Z :: 5%Z :: replicate 7 0%Z.
Proof.
  split; [|split].
  - destruct (remove_client_twice (run_ops [Add 5; Add 6]%Z) 7%Z) as [Habsent _].
    apply Habsent.
    apply (bool_decide_unpack (7%Z ∉ _)). vm_compute. exact I.
  - destruct (remove_client_twice (run_ops [Add 5; Add 6]%Z) 5%Z)
      as (_ & Htwice & _).
    apply Htwice; [reflexivity|]. right. vm_compute. lia.
  - destruct (remove_client_twice (run_ops [Add 6; Add 5; Add 5]%Z) 5%Z)
      as (_ & _ & Hfirst).
    apply Hfirst; [reflexivity|reflexivity|].
    apply (bool_decide_unpack (5%Z ∉ _)). vm_compute. exact I.
Defined.

(** C6 as worded fails on the code: in the registry reached by Add 5, Add 5
    the first Remove(5) empties slot 0 and the second one empties slot 1. *)
Lemma remove_idempotent_counterexample :
  ¬ remove_idempotent (run_ops [Add 5; Add 5]%Z) 5%Z.
Proof. intros [_ H]. vm_compute in H. discriminate H. Qed.

(** C10.  After every sequence of Add and Remove, no snapshot contains 0,
    0 is not among the registered handles, and Add(0) leaves the array, and
    with it the registered non-zero handles, as they were. *)
Theorem zero_is_the_empty_slot (ops : list op) (h : Z) :
  (0%Z ∉ Snapshot (run_ops ops) h)
  ∧ (0%Z ∉ members (run_ops ops))
  ∧ (0%Z ∉ members (run_ops (ops ++ [Add 0%Z])))
  ∧ add_client (run_ops ops) 0%Z = run_ops ops
  ∧ members (add_client (run_ops ops) 0%Z) = members (run_ops ops).
Proof.
  assert (∀ cs, 0%Z ∉ members cs) as Hm.
  { intros cs [? _]%list_elem_of_filter. done. }
  assert (add_client (run_ops ops) 0%Z = run_ops ops) as Hadd
    by apply add_client_loop_zero.
  split; [|split; [|split; [|split]]]; try done.
  - rewrite Snapshot_run_ops. intros [_ ?]%list_elem_of_filter. by eapply Hm.
  - by rewrite Hadd.
Qed.

End RegistryFacts.

(** ** Facts about sessions and broadcasts *)

Module SessionFacts.
Import Server CStringFacts RegistryFacts.

Lemma delivered_app s tr1 tr2 :
  delivered s (tr1 ++ tr2) = delivered s tr1 ++ delivered s tr2.
Proof. unfold delivered. apply omap_app. Qed.

Lemma delivered_sends (B : Z) (l : list Z) (d : list ascii) :
  delivered B ((λ c, EvSend c d) <$> l) = replicate (slots_of l B) d.
Proof.
  induction l as [|c l IH]; [done|].
  rewrite fmap_cons, slots_of_cons. simpl. rewrite IH. by case_decide.
Qed.

Lemma slots_of_targets cs A B :
  slots_of (targets cs A) B
  = if decide (B ≠ 0%Z ∧ B ≠ A) then slots_of cs B else 0.
Proof.
  unfold slots_of, targets. rewrite list_filter_filter.
  case_decide as HB.
  - f_equal. apply list_filter_iff. intros x. naive_solver.
  - rewrite (list_filter_iff _ (λ _, False)); [|intros x; naive_solver].
    by induction cs.
Qed.

Lemma send_lock_states_sends held (l : list Z) (d : list ascii) tr :
  send_lock_states held (((λ c, EvSend c d) <$> l) ++ tr)
  = replicate (length l) held ++ send_lock_states held tr.
Proof. induction l as [|c l IH]; [done|]. simpl. by f_equal. Qed.

Lemma tagged_no_nul id text : NUL ∉ text → NUL ∉ tagged id text.
Proof.
  intros Ht. unfold tagged. rewrite !not_elem_of_app.
  split; [by apply (bool_decide_unpack (NUL ∉ _))|].
  split; [apply fmt_d_no_nul|].
  split; [by apply (bool_decide_unpack (NUL ∉ _))|done].
Qed.

Lemma tagged_length id text :
  int_range id → length (tagged id text) ≤ 22 + length text.
Proof.
  intros Hid. unfold tagged. rewrite !length_app.
  pose proof (fmt_d_length id Hid).
  change (length (chars "[Client ")) with 8.
  change (length (chars "]: ")) with 3. lia.
Qed.

(** A turn of the read loop that received fewer than [BUFFER_SIZE] bytes. *)
Lemma session_read_data cs A peer P :
  length cs ≤ MAX_CLIENTS →
  int_range (client_id A) →
  0 < length P < BUFFER_SIZE →
  session_read cs A peer (ReadBytes P)
  = Some (cs,
          EvPrint (log_sent (client_id A) (until_nul P))
          :: EvLock
          :: ((λ c, EvSend c (tagged (client_id A) (until_nul P)))
                <$> targets cs (sock A))
          ++ [EvUnlock],
          Continue).
Proof.
  intros Hcs Hid [Hpos Hlt]. unfold session_read, read_into.
  rewrite zeroed_length, (take_ge P) by lia.
  rewrite store_zeroed_nul by done.
  rewrite decide_False by lia.
  rewrite c_str_app_nul. simpl.
  pose proof (tagged_length (client_id A) (until_nul P) Hid) as Hlen.
  pose proof (until_nul_length P) as Hlen'.
  rewrite snprintf_fits by (unfold BUFFER_SIZE in *; lia).
  rewrite (broadcast_message_targets cs (sock A) _
             (length (tagged (client_id A) (until_nul P)))); [|done|].
  - simpl. by rewrite take_app_length.
  - replace [NUL] with (NUL :: []) by done.
    apply strlen_app_nul, tagged_no_nul, until_nul_no_nul.
Qed.

Lemma elem_of_add_first cs y x : x ∈ add_first cs y → x = y ∨ x ∈ cs.
Proof.
  induction cs as [|c cs IH]; simpl; [by right|].
  case_decide; rewrite !elem_of_cons; naive_solver.
Qed.

Lemma elem_of_remove_first cs y x : x ∈ remove_first cs y → x = 0%Z ∨ x ∈ cs.
Proof.
  induction cs as [|c cs IH]; simpl; [by right|].
  case_decide; rewrite !elem_of_cons; naive_solver.
Qed.

Lemma elem_of_targets cs A x :
  x ∈ targets cs A ↔ (x ≠ 0%Z ∧ x ≠ A) ∧ (x ∈ cs).
Proof. unfold targets. by rewrite list_elem_of_filter. Qed.

(** What a turn of the read loop can do: it leaves the array alone or
    deregisters its own socket, and it writes to broadcast targets only. *)
Lemma session_read_effect cs A peer r cs' tr ctl :
  length cs ≤ MAX_CLIENTS →
  session_read cs A peer r = Some (cs', tr, ctl) →
  (cs' = cs ∨ cs' = remove_client cs (sock A))
  ∧ ∀ x, x ∈ recipients tr → x ∈ targets cs (sock A).
Proof.
  intros Hcs. unfold session_read.
  destruct (read_into (zeroed BUFFER_SIZE) r) as [buffer valread].
  case_decide.
  - intros [= <- <- <-]. split; [by right|].
    simpl. by intros x ?%elem_of_nil.
  - destruct (c_str buffer) as [text|]; [|done].
    destruct (strlen_snprintf (BUFFER_SIZE + 50) (tagged (client_id A) text))
      as [len Hlen].
    change (Some text ≫= ?f) with (f text). cbv beta.
    rewrite (broadcast_message_targets cs (sock A) _ len Hcs Hlen).
    change (Some ?l ≫= ?f) with (f l). cbv beta.
    intros [= <- <- <-]. split; [by left|].
    change (recipients (EvPrint ?t :: EvLock :: ?l)) with (recipients l).
    rewrite recipients_app, recipients_sends. simpl. rewrite app_nil_r. done.
Qed.

Lemma session_start_effect {rand_state : Type} (seed_state : Z → rand_state)
    (next_rand : rand_state → Z * rand_state) cs g s ok now peer :
  ∃ g1 info tr,
    session_start seed_state next_rand cs g s ok now peer
    = ((if ok then add_client cs s else cs), g1, info, tr)
    ∧ recipients tr = [].
Proof.
  unfold session_start. destruct ok.
  - unfold rand. destruct (next_rand (srand seed_state now g)) as [id g2].
    by eexists _, _, _.
  - by eexists _, _, _.
Qed.

(** A socket that is in no slot, and that no later step registers, is never
    written to. *)
Lemma unregistered_never_written {rand_state : Type}
    (seed_state : Z → rand_state) (next_rand : rand_state → Z * rand_state)
    s acts :
  ∀ cs g st tr,
    length cs = MAX_CLIENTS →
    (s = 0%Z ∨ s ∉ cs) →
    forallb (λ a, negb (accepts s a)) acts = true →
    system_run seed_state next_rand (cs, g) acts = Some (st, tr) →
    s ∉ recipients tr.
Proof.
  induction acts as [|a acts IH]; intros cs g st tr Hcs Hs Hacts; simpl.
  { intros [= <- <-]. apply not_elem_of_nil. }
  simpl in Hacts. apply andb_true_iff in Hacts as [Ha Hacts].
  destruct (system_step seed_state next_rand (cs, g) a)
    as [[[cs1 g1] tr1]|] eqn:Hstep; simpl; [|done].
  destruct (system_run seed_state next_rand (cs1, g1) acts)
    as [[st2 tr2]|] eqn:Hrun; simpl; [|done].
  intros [= <- <-]. rewrite recipients_app, not_elem_of_app.
  assert (length cs1 = MAX_CLIENTS ∧ (s = 0%Z ∨ s ∉ cs1) ∧ s ∉ recipients tr1)
    as (Hcs1 & Hs1 & Htr1); [|split; [done|by eapply IH]].
  destruct a as [s' ok now peer|A peer r]; simpl in Hstep.
  - destruct (session_start_effect seed_state next_rand cs g s' ok now peer)
      as (g' & info & tr' & Hstart & Hrec).
    rewrite Hstart in Hstep. injection Hstep as <- <- <-.
    rewrite Hrec. split; [|split; [|apply not_elem_of_nil]].
    + destruct ok; [|done]. unfold add_client.
      by rewrite add_client_loop_length.
    + destruct ok; [|done]. destruct Hs as [?|Hs]; [by left|right].
      rewrite add_client_add_first by lia.
      intros [->|?]%elem_of_add_first; [|done].
      simpl in Ha. by rewrite bool_decide_eq_true_2 in Ha.
  - destruct (session_read cs A peer r) as [[[cs' tr'] ctl]|] eqn:Hread;
      simpl in Hstep; [|done].
    injection Hstep as <- <- <-.
    apply session_read_effect in Hread as [Hcs' Hrec]; [|lia].
    split; [|split].
    + destruct Hcs' as [->| ->]; [done|].
      unfold remove_client. by rewrite remove_client_loop_length.
    + destruct Hs as [?|Hs]; [by left|].
      destruct (decide (s = 0%Z)) as [?|Hs0]; [by left|right].
      destruct Hcs' as [->| ->]; [done|].
      rewrite remove_client_remove_first by lia.
      by intros [?|?]%elem_of_remove_first.
    + intros [[Hx0 _] Hx]%Hrec%elem_of_targets. by destruct Hs.
Qed.

(** *** The claims about sessions and broadcasts *)

(** C2, as the code has it.  When a session A reads a payload [P] of fewer
    than [BUFFER_SIZE] bytes, every other registered socket B is written, once
    for each slot it is in, the tag of A followed by the bytes of [P] before
    its first NUL; that is [P] itself when [P] has no NUL, and a socket in one
    slot is written once.  The socket of A is written nothing. *)
Theorem tagged_broadcast (cs : list Z) (A : client_info_t) (peer : peer_addr)
    (B : Z) (P : list ascii) :
  length cs = MAX_CLIENTS →
  int_range (client_id A) →
  B ≠ 0%Z → B ≠ sock A →
  0 < length P < BUFFER_SIZE →
  ∃ tr, session_read cs A peer (ReadBytes P) = Some (cs, tr, Continue)
        ∧ delivered B tr
          = replicate (slots_of cs B) (tagged (client_id A) (until_nul P))
        ∧ (slots_of cs B = 1 → NUL ∉ P →
           delivered B tr = [tagged (client_id A) P])
        ∧ delivered (sock A) tr = [].
Proof.
  intros Hcs Hid HB0 HBA HP. eexists. split.
  { apply session_read_data; [lia|done|done]. }
  assert (∀ x, delivered x
            (EvPrint (log_sent (client_id A) (until_nul P))
             :: EvLock
             :: ((λ c, EvSend c (tagged (client_id A) (until_nul P)))
                   <$> targets cs (sock A)) ++ [EvUnlock])
          = replicate (slots_of (targets cs (sock A)) x)
              (tagged (client_id A) (until_nul P))) as Hdel.
  { intros x.
    change (delivered x (EvPrint ?t :: EvLock :: ?l)) with (delivered x l).
    rewrite delivered_app, delivered_sends. apply app_nil_r. }
  rewrite !Hdel, !slots_of_targets.
  rewrite (decide_True (P := B ≠ 0%Z ∧ B ≠ sock A)) by done.
  rewrite (decide_False (P := sock A ≠ 0%Z ∧ sock A ≠ sock A)) by naive_solver.
  split; [done|]. split; [|done].
  intros -> HP0. by rewrite until_nul_id.
Qed.

Lemma tagged_broadcast_witness :
  ∃ tr, session_read (run_ops [Add 4; Add 5]%Z) {| sock := 4; client_id := 7 |}
          example_peer
          (ReadBytes (chars "hello"))
        = Some (run_ops [Add 4; Add 5]%Z, tr, Continue)
        ∧ delivered 5%Z tr = [chars "[Client 7]: hello"]
        ∧ delivered 4%Z tr = [].
Proof.
  destruct (tagged_broadcast (run_ops [Add 4; Add 5]%Z)
              {| sock := 4; client_id := 7 |}
              example_peer
              5%Z (chars "hello")) as (tr & Hrun & _ & Hone & Hself).
  - reflexivity.
  - unfold int_range. simpl. lia.
  - discriminate.
  - discriminate.
  - unfold BUFFER_SIZE. simpl. lia.
  - exists tr. split; [exact Hrun|]. split; [|exact Hself].
    apply Hone; [reflexivity|].
    apply (bool_decide_unpack (NUL ∉ _)). vm_compute. exact I.
Defined.

(** A read that fills the buffer, 1024 bytes none of which is NUL, leaves
    no terminator for [%s]: the turn has no defined result. *)
Example session_read_full_buffer :
  session_read (run_ops [Add 4; Add 5]%Z) {| sock := 4; client_id := 7 |}
    example_peer (ReadBytes (replicate BUFFER_SIZE "a"%char))
  = None.
Proof. vm_compute. reflexivity. Qed.

(** C2 as worded fails on the code: of the payload a, NUL, b only a reaches
    the peer; and a peer that is in two slots is written twice. *)
Lemma broadcast_exact_counterexample :
  ¬ broadcast_exact (run_ops [Add 4; Add 5]%Z) {| sock := 4; client_id := 7 |}
      example_peer
      5%Z (chars "a" ++ NUL :: chars "b")
  ∧ ¬ broadcast_exact (run_ops [Add 4; Add 5; Add 5]%Z)
        {| sock := 4; client_id := 7 |}
        example_peer
        5%Z (chars "hi").
Proof.
  split; intros (tr & Hrun & HB & _); vm_compute in Hrun;
    injection Hrun as <-; vm_compute in HB; discriminate HB.
Qed.

(** C3, as the code has it.  [broadcast_message] takes the mutex, issues one
    [send] for each target slot, and releases the mutex after the last one:
    every write to a peer happens while the mutex is held.  No copy of the
    membership is made. *)
Theorem broadcast_writes_under_lock (cs : list Z) (sender : Z)
    (message : list ascii) (len : nat) :
  length cs = MAX_CLIENTS →
  strlen message = Some len →
  ∃ sends,
    broadcast_message cs sender message = Some (EvLock :: sends ++ [EvUnlock])
    ∧ sends = (λ c, EvSend c (take len message)) <$> targets cs sender
    ∧ send_lock_states false (EvLock :: sends ++ [EvUnlock])
      = replicate (length (targets cs sender)) true.
Proof.
  intros Hcs Hlen. eexists. split; [|split; [reflexivity|]].
  - apply broadcast_message_targets; [lia|done].
  - simpl. rewrite send_lock_states_sends. simpl. apply app_nil_r.
Qed.

Lemma broadcast_writes_under_lock_witness :
  ∃ sends,
    broadcast_message (run_ops [Add 4; Add 5]%Z) 4%Z (chars "hi" ++ [NUL])
    = Some (EvLock :: sends ++ [EvUnlock])
    ∧ sends = (λ c, EvSend c (take 2 (chars "hi" ++ [NUL])))
                <$> targets (run_ops [Add 4; Add 5]%Z) 4%Z
    ∧ send_lock_states false (EvLock :: sends ++ [EvUnlock])
      = replicate (length (targets (run_ops [Add 4; Add 5]%Z) 4%Z)) true.
Proof.
  apply (broadcast_writes_under_lock (run_ops [Add 4; Add 5]%Z) 4%Z
           (chars "hi" ++ [NUL]) 2); reflexivity.
Defined.

(** C3 as worded fails on the code: with sockets 4 and 5 registered, the
    write to 5 of a broadcast from 4 comes between the lock and the unlock. *)
Lemma writes_outside_lock_counterexample :
  ¬ writes_outside_lock (run_ops [Add 4; Add 5]%Z) 4%Z (chars "hi" ++ [NUL]).
Proof.
  intros H.
  specialize (H [EvLock; EvSend 5%Z (chars "hi"); EvUnlock] eq_refl).
  simpl in H. apply Forall_cons in H as [H _]. discriminate H.
Qed.

(** The whole session of a connection accepted on socket 11 while sockets 1
    to 10 are registered: it reads "hi", which is broadcast to the ten
    registered sockets, then the end of the stream, and closes.  The registry
    is the same before and after. *)
Example handle_client_over_capacity :
  ∃ g tr,
    handle_client lcg_seed lcg_next [1; 2; 3; 4; 5; 6; 7; 8; 9; 10]%Z 0%Z 11%Z
      true 1700000000%Z example_peer [ReadBytes (chars "hi"); ReadBytes []]
    = Some ([1; 2; 3; 4; 5; 6; 7; 8; 9; 10]%Z, g, tr)
    ∧ recipients tr = [1; 2; 3; 4; 5; 6; 7; 8; 9; 10]%Z
    ∧ delivered 1%Z tr = [chars "[Client 25939]: hi"]
    ∧ last tr = Some (EvClose 11%Z).
Proof. eexists _, _. split; [vm_compute; reflexivity|]. by vm_compute. Qed.

(** C7, as the code has it.  A connection accepted while every slot is
    occupied is not refused and the registry does not grow: its session starts
    as any other, [add_client] changes nothing, and for as long as the session
    lasts (until its socket is accepted anew) no broadcast is written to it,
    whatever the other sessions do. *)
Theorem full_registry_drops_connection {rand_state : Type}
    (seed_state : Z → rand_state) (next_rand : rand_state → Z * rand_state)
    (cs : list Z) (g : rand_state) (s : Z) (now : Z) (peer : peer_addr) :
  length cs = MAX_CLIENTS →
  0%Z ∉ cs →
  s ∉ cs →
  ∃ id g1,
    session_start seed_state next_rand cs g s true now peer
    = (cs, g1, Some {| sock := s; client_id := id |},
       [EvPrint (log_connected peer id); EvLock; EvUnlock])
    ∧ ∀ acts st tr,
        forallb (λ a, negb (accepts s a)) acts = true →
        system_run seed_state next_rand (cs, g1) acts = Some (st, tr) →
        s ∉ recipients tr.
Proof.
  intros Hcs Hfull Hs. unfold session_start, rand.
  destruct (next_rand (srand seed_state now g)) as [id g1] eqn:Hrand.
  exists id, g1. split.
  - unfold add_client. by rewrite add_client_loop_full.
  - intros acts st tr Hacts Hrun.
    eapply unregistered_never_written; [exact Hcs|by right|exact Hacts|exact Hrun].
Qed.

(** Socket 11 connects to a full registry; then socket 1 sends, socket 2
    disconnects, and socket 1 sends again. *)
Lemma full_registry_drops_connection_witness :
  ∃ id g1 st tr,
    session_start lcg_seed lcg_next
      [1; 2; 3; 4; 5; 6; 7; 8; 9; 10]%Z 0%Z 11%Z true 1700000000%Z example_peer
    = ([1; 2; 3; 4; 5; 6; 7; 8; 9; 10]%Z, g1,
       Some {| sock := 11; client_id := id |},
       [EvPrint (log_connected example_peer id); EvLock; EvUnlock])
    ∧ system_run lcg_seed lcg_next
        ([1; 2; 3; 4; 5; 6; 7; 8; 9; 10]%Z, g1) example_acts = Some (st, tr)
    ∧ 11%Z ∉ recipients tr.
Proof.
  destruct (full_registry_drops_connection lcg_seed lcg_next
              [1; 2; 3; 4; 5; 6; 7; 8; 9; 10]%Z 0%Z 11%Z 1700000000%Z
              example_peer)
    as (id & g1 & Hstart & Hnever).
  - reflexivity.
  - apply (bool_decide_unpack (0%Z ∉ _)). vm_compute. exact I.
  - apply (bool_decide_unpack (11%Z ∉ _)). vm_compute. exact I.
  - exists id, g1.
    destruct (system_run lcg_seed lcg_next
                ([1; 2; 3; 4; 5; 6; 7; 8; 9; 10]%Z, g1) example_acts)
      as [[st tr]|] eqn:Hrun.
    + exists st, tr. split; [exact Hstart|]. split; [reflexivity|].
      apply (Hnever example_acts st tr); [reflexivity|exact Hrun].
    + exfalso. vm_compute in Hrun. discriminate Hrun.
Defined.

(** C7 as worded fails on the code: with sockets 1 to 10 registered, the
    session for socket 11 starts without registering it and without refusing
    it. *)
Lemma capacity_handled_counterexample :
  ¬ capacity_handled lcg_seed lcg_next
      [1; 2; 3; 4; 5; 6; 7; 8; 9; 10]%Z 0%Z 11%Z 1700000000%Z
      example_peer.
Proof.
  unfold capacity_handled. simpl. intros [H|[H _]]; [|discriminate H].
  revert H. apply (bool_decide_unpack (11%Z ∉ _)). vm_compute. exact I.
Qed.

End SessionFacts.

(** ** Facts about the client's send loop *)

Module ClientFacts.
Import Client CStringFacts.

Lemma fgets_chars_length n stdin : length (fgets_chars n stdin).1 ≤ n.
Proof.
  revert stdin. induction n as [|n IH]; intros stdin; simpl; [done|].
  destruct stdin as [|c rest]; simpl; [lia|].
  case_decide; simpl; [lia|].
  specialize (IH rest). destruct (fgets_chars n rest). simpl in *. lia.
Qed.

Lemma fgets_chars_line n l rest :
  LF ∉ l → length l < n →
  fgets_chars n (l ++ LF :: rest) = (l ++ [LF], rest).
Proof.
  revert n. induction l as [|c l IH]; intros n Hl Hn.
  - destruct n; [simpl in Hn; lia|]. done.
  - apply not_elem_of_cons in Hl as [Hc Hl].
    destruct n; [simpl in Hn; lia|]. simpl.
    rewrite decide_False by done.
    rewrite IH; [done|done|simpl in Hn; lia].
Qed.

Lemma strcspn_line l x :
  NUL ∉ l → LF ∉ l → strcspn (l ++ LF :: x) [LF] = Some (length l).
Proof.
  induction l as [|c l IH]; intros Hnul Hlf; [done|]. simpl.
  - apply not_elem_of_cons in Hnul as [? ?].
    apply not_elem_of_cons in Hlf as [? ?].
    rewrite decide_False.
    + by rewrite IH.
    + intros [?|Hin]; [done|]. by apply list_elem_of_singleton in Hin.
Qed.

Lemma strcspn_defined a reject : NUL ∈ a → is_Some (strcspn a reject).
Proof.
  induction a as [|c a IH]; simpl; [by intros ?%elem_of_nil|].
  intros Hin. case_decide as Hc; [by eexists|].
  apply elem_of_cons in Hin as [Heq|Hin]; [by destruct Hc; left|].
  destruct (IH Hin) as [i ->]. by eexists.
Qed.

(** After [buffer[strcspn(buffer, reject)] = 0] the buffer holds the string
    up to that index. *)
Lemma c_str_cut a reject i :
  strcspn a reject = Some i → c_str (<[i := NUL]> a) = Some (take i a).
Proof.
  revert i. induction a as [|c a IH]; intros i; simpl; [done|].
  case_decide as Hc.
  - intros [= <-]. simpl. by rewrite c_str_cons, decide_True.
  - destruct (strcspn a reject) as [j|]; simpl; [|done].
    intros [= <-]. simpl. rewrite c_str_cons, decide_False by naive_solver.
    by rewrite (IH j).
Qed.

(** What [fgets] leaves in the zeroed buffer always has a terminator. *)
Lemma fgets_terminated stdin :
  NUL ∈ (fgets (zeroed BUFFER_SIZE) stdin).1.
Proof.
  unfold fgets. rewrite zeroed_length.
  pose proof (fgets_chars_length (BUFFER_SIZE - 1) stdin) as Hlen.
  destruct (fgets_chars (BUFFER_SIZE - 1) stdin) as [got rest].
  simpl in Hlen.
  assert (NUL ∈ zeroed BUFFER_SIZE) as Hz.
  { apply elem_of_replicate. split; [done|]. unfold BUFFER_SIZE. lia. }
  destruct got as [|c got]; [done|].
  simpl fst. rewrite store_zeroed.
  - apply elem_of_app. left. apply elem_of_cons. right.
    apply elem_of_app. right. by left.
  - simpl. rewrite length_app. simpl in *. unfold BUFFER_SIZE in *. lia.
Qed.

(** Every turn of the send loop is defined: no string function runs past
    the buffer. *)
Lemma send_turn_defined sock stdin : is_Some (send_turn sock stdin).
Proof.
  unfold send_turn. pose proof (fgets_terminated stdin) as Hnul.
  destruct (fgets (zeroed BUFFER_SIZE) stdin) as [buffer rest]. simpl in Hnul.
  destruct (strcspn_defined buffer [LF] Hnul) as [i Hi].
  rewrite Hi. simpl. rewrite (c_str_cut _ _ _ Hi). simpl.
  case_decide; by eexists.
Qed.

Lemma send_turn_line sock l rest :
  LF ∉ l → NUL ∉ l → length l + 2 ≤ BUFFER_SIZE →
  line_handled sock l rest.
Proof.
  intros Hlf Hnul Hlen. unfold line_handled, send_turn, fgets.
  rewrite zeroed_length.
  rewrite fgets_chars_line by (try done; unfold BUFFER_SIZE in *; lia).
  destruct (l ++ [LF]) as [|c got] eqn:Hgot; [by destruct l|].
  rewrite <-Hgot. clear c got Hgot.
  rewrite store_zeroed by (rewrite !length_app; simpl; lia).
  rewrite <-!app_assoc. simpl.
  rewrite strcspn_line by done. simpl.
  replace (length l) with (length l + 0) by lia.
  rewrite insert_app_r. simpl.
  rewrite c_str_app_nul, until_nul_id by done. simpl.
  by case_decide.
Qed.

(** *** The claim about the send loop *)

(** C9, as the code has it.  An input line of at most [BUFFER_SIZE - 2]
    characters, none of them NUL, is handled in one turn of the loop: its
    newline is dropped; when it is "exit" the loop is left and the socket
    closed; otherwise the line is written to the socket and the loop goes on
    with the rest of the input. *)
Theorem send_loop_line (sock : Z) (l rest : list ascii) (fuel : nat) :
  LF ∉ l → NUL ∉ l → length l + 2 ≤ BUFFER_SIZE →
  line_handled sock l rest
  ∧ start_client (S fuel) sock (l ++ LF :: rest)
    = if decide (l = chars "exit")
      then Some ([EvPrint prompt; EvPrint exiting; EvClose sock], Break)
      else '(tr, ctl) ← start_client fuel sock rest;
           Some (EvPrint prompt :: EvSend sock l :: tr, ctl).
Proof.
  intros Hlf Hnul Hlen.
  pose proof (send_turn_line sock l rest Hlf Hnul Hlen) as Hturn.
  split; [done|].
  unfold line_handled in Hturn.
  change (start_client (S fuel) sock (l ++ LF :: rest))
    with ('(tr, ctl, rest') ← send_turn sock (l ++ LF :: rest);
          match ctl with
          | Break => Some (tr ++ [EvClose sock], Break)
          | Continue =>
              '(tr', ctl') ← start_client fuel sock rest';
              Some (tr ++ tr', ctl')
          end).
  rewrite Hturn. by case_decide.
Qed.

Lemma send_loop_line_witness :
  line_handled 3%Z (chars "hello") (chars "exit" ++ [LF])
  ∧ start_client 2 3%Z (chars "hello" ++ LF :: chars "exit" ++ [LF])
    = Some ([EvPrint prompt; EvSend 3%Z (chars "hello");
             EvPrint prompt; EvPrint exiting; EvClose 3%Z], Break).
Proof.
  assert (LF ∉ chars "hello") as Hlf by (by apply (bool_decide_unpack (LF ∉ _))).
  assert (NUL ∉ chars "hello") as Hnul by (by apply (bool_decide_unpack (NUL ∉ _))).
  assert (length (chars "hello") + 2 ≤ BUFFER_SIZE) as Hlen
    by (unfold BUFFER_SIZE; simpl; lia).
  destruct (send_loop_line 3%Z (chars "hello") (chars "exit" ++ [LF]) 1
              Hlf Hnul Hlen) as [Hline Hloop].
  split; [exact Hline|]. rewrite Hloop. reflexivity.
Defined.

(** C9 as worded fails on the code: of a line of 1023 letters a followed by
    "exit" only the 1023 letters are written, and the next turn, reading
    "exit", leaves the loop; and the line made of "exit", a NUL and more text
    leaves the loop as "exit" does. *)
Lemma line_handled_counterexample :
  ¬ line_handled 3%Z (replicate 1023 "a"%char ++ chars "exit") []
  ∧ start_client 2 3%Z (replicate 1023 "a"%char ++ chars "exit" ++ [LF])
    = Some ([EvPrint prompt; EvSend 3%Z (replicate 1023 "a"%char);
             EvPrint prompt; EvPrint exiting; EvClose 3%Z], Break)
  ∧ ¬ line_handled 3%Z (chars "exit" ++ NUL :: chars "junk") [].
Proof.
  split; [|split].
  - unfold line_handled. apply (bool_decide_unpack (_ ≠ _)). vm_compute. exact I.
  - vm_compute. reflexivity.
  - unfold line_handled. apply (bool_decide_unpack (_ ≠ _)). vm_compute. exact I.
Qed.

End ClientFacts.

(** ** More about the registry *)

Module RegistryMore.
Import Server RegistryFacts.

Lemma remove_add_first cs h :
  h ∉ cs → remove_first (add_first cs h) h = cs.
Proof.
  induction cs as [|c cs IH]; intros Hh; simpl; [done|].
  apply not_elem_of_cons in Hh as [Hc Hh].
  destruct (decide (c = 0%Z)) as [->|Hc0]; simpl.
  - by rewrite decide_True.
  - rewrite decide_False by done. f_equal. by apply IH.
Qed.

(** X1.  Registering a socket that is in no slot and deregistering it again
    gives back the array as it was, whether a slot was free or not. *)
Theorem add_then_remove (cs : list Z) (h : Z) :
  length cs = MAX_CLIENTS →
  h ∉ cs →
  remove_client (add_client cs h) h = cs.
Proof.
  intros Hlen Hh.
  rewrite add_client_add_first by lia.
  rewrite remove_client_remove_first by (rewrite add_first_length; lia).
  by apply remove_add_first.
Qed.

Lemma add_then_remove_witness :
  remove_client (add_client (run_ops [Add 5%Z]) 6%Z) 6%Z = run_ops [Add 5%Z].
Proof.
  apply (add_then_remove (run_ops [Add 5%Z]) 6%Z); [reflexivity|].
  apply (bool_decide_unpack (6%Z ∉ _)). vm_compute. exact I.
Defined.

Lemma members_add_first cs h :
  h ≠ 0%Z → 0%Z ∈ cs → members (add_first cs h) ≡ₚ h :: members cs.
Proof.
  intros Hh. unfold members.
  induction cs as [|c cs IH]; intros Hin; simpl.
  - by apply elem_of_nil in Hin.
  - destruct (decide (c = 0%Z)) as [->|Hc].
    + rewrite filter_cons_True by done. by rewrite (filter_cons_False _ 0%Z) by naive_solver.
    + apply elem_of_cons in Hin as [?|Hin]; [congruence|].
      rewrite !filter_cons_True by done. rewrite IH by done.
      apply Permutation_swap.
Qed.

Lemma members_remove_first cs h :
  h ≠ 0%Z → h ∈ cs → h :: members (remove_first cs h) ≡ₚ members cs.
Proof.
  intros Hh. unfold members.
  induction cs as [|c cs IH]; intros Hin; simpl.
  - by apply elem_of_nil in Hin.
  - destruct (decide (c = h)) as [->|Hc].
    + rewrite (filter_cons_False _ 0%Z) by naive_solver.
      by rewrite filter_cons_True by done.
    + apply elem_of_cons in Hin as [?|Hin]; [congruence|].
      destruct (decide (c = 0%Z)) as [->|Hc0].
      * rewrite !(filter_cons_False _ 0%Z) by naive_solver. by apply IH.
      * rewrite !filter_cons_True by done. rewrite <-IH by done.
        apply Permutation_swap.
Qed.

Lemma Snapshot_members cs e :
  length cs = MAX_CLIENTS → Snapshot cs e = filter (λ c, c ≠ e) (members cs).
Proof. intros H. rewrite Snapshot_targets by lia. apply targets_members. Qed.

Lemma add_client_length cs h : length (add_client cs h) = length cs.
Proof. apply add_client_loop_length. Qed.

Lemma remove_client_length cs h : length (remove_client cs h) = length cs.
Proof. apply remove_client_loop_length. Qed.

(** X2.  When a slot is free, adding a non-zero socket makes it a recipient
    of every other socket's broadcasts and leaves the other recipients as they
    were. *)
Theorem add_client_registers (cs : list Z) (h e : Z) :
  length cs = MAX_CLIENTS →
  0%Z ∈ cs → h ≠ 0%Z → e ≠ h →
  Snapshot (add_client cs h) e ≡ₚ h :: Snapshot cs e.
Proof.
  intros Hlen Hfree Hh He.
  rewrite !Snapshot_members by (by rewrite ?add_client_length).
  rewrite add_client_add_first by lia.
  rewrite members_add_first by done.
  by rewrite filter_cons_True by done.
Qed.

Lemma add_client_registers_witness :
  Snapshot (add_client (run_ops [Add 5%Z]) 6%Z) 7%Z
  ≡ₚ 6%Z :: Snapshot (run_ops [Add 5%Z]) 7%Z.
Proof.
  apply (add_client_registers (run_ops [Add 5%Z]) 6%Z 7%Z);
    [reflexivity| |discriminate|discriminate].
  apply (bool_decide_unpack (0%Z ∈ _)). vm_compute. exact I.
Defined.

(** X3.  Removing a registered non-zero socket takes one entry for it out of
    every other socket's broadcast and leaves the other recipients as they
    were. *)
Theorem remove_client_deregisters (cs : list Z) (h e : Z) :
  length cs = MAX_CLIENTS →
  h ∈ cs → h ≠ 0%Z → e ≠ h →
  h :: Snapshot (remove_client cs h) e ≡ₚ Snapshot cs e.
Proof.
  intros Hlen Hin Hh He.
  rewrite !Snapshot_members by (by rewrite ?remove_client_length).
  rewrite remove_client_remove_first by lia.
  rewrite <-(members_remove_first cs h) by done.
  by rewrite filter_cons_True by done.
Qed.

Lemma remove_client_deregisters_witness :
  5%Z :: Snapshot (remove_client (run_ops [Add 5; Add 6]%Z) 5%Z) 7%Z
  ≡ₚ Snapshot (run_ops [Add 5; Add 6]%Z) 7%Z.
Proof.
  apply (remove_client_deregisters (run_ops [Add 5; Add 6]%Z) 5%Z 7%Z);
    [reflexivity| |discriminate|discriminate].
  apply (bool_decide_unpack (5%Z ∈ _)). vm_compute. exact I.
Defined.

Lemma remove_first_comm cs x y :
  remove_first (remove_first cs x) y = remove_first (remove_first cs y) x.
Proof.
  destruct (decide (x = y)) as [->|Hxy]; [done|].
  induction cs as [|c cs IH]; simpl; [done|].
  destruct (decide (c = x)) as [Hcx|Hcx]; destruct (decide (c = y)) as [Hcy|Hcy];
    simpl.
  - congruence.
  - rewrite (decide_True (P := c = x)) by done.
    destruct (decide (0%Z = y)) as [<-|H0]; [|done].
    by rewrite remove_first_zero.
  - rewrite (decide_True (P := c = y)) by done.
    destruct (decide (0%Z = x)) as [<-|H0]; [|done].
    by rewrite remove_first_zero.
  - rewrite (decide_False (P := c = x)), (decide_False (P := c = y)) by done.
    by f_equal.
Qed.

(** X4.  Two deregistrations give the same array in either order. *)
Theorem remove_client_comm (cs : list Z) (x y : Z) :
  length cs = MAX_CLIENTS →
  remove_client (remove_client cs x) y = remove_client (remove_client cs y) x.
Proof.
  intros Hlen.
  rewrite (remove_client_remove_first cs x), (remove_client_remove_first cs y) by lia.
  rewrite !remove_client_remove_first by (rewrite remove_first_length; lia).
  apply remove_first_comm.
Qed.

Lemma remove_client_comm_witness :
  remove_client (remove_client (run_ops [Add 5; Add 6; Add 5]%Z) 5%Z) 6%Z
  = remove_client (remove_client (run_ops [Add 5; Add 6; Add 5]%Z) 6%Z) 5%Z.
Proof.
  apply (remove_client_comm (run_ops [Add 5; Add 6; Add 5]%Z) 5%Z 6%Z).
  reflexivity.
Defined.

Lemma add_remove_first_full cs s h :
  0%Z ∉ cs → s ∈ cs →
  ∃ pre suf, cs = pre ++ s :: suf ∧ (s ∉ pre)
             ∧ add_first (remove_first cs s) h = pre ++ h :: suf.
Proof.
  induction cs as [|c cs IH]; intros Hfull Hin.
  - by apply elem_of_nil in Hin.
  - apply not_elem_of_cons in Hfull as [Hc Hfull]. simpl.
    destruct (decide (c = s)) as [->|Hcs].
    + exists [], cs. split; [done|]. split; [apply not_elem_of_nil|]. done.
    + apply elem_of_cons in Hin as [?|Hin]; [congruence|].
      destruct (IH Hfull Hin) as (pre & suf & -> & Hpre & Heq).
      exists (c :: pre), suf. split; [done|].
      split; [by apply not_elem_of_cons|].
      simpl. rewrite decide_False by congruence. by rewrite Heq.
Qed.

(** X5.  When every slot is occupied and a registered socket is removed,
    the next socket added takes exactly the slot that was freed, the first
    one that held the removed socket; the other slots keep their sockets. *)
Theorem freed_slot_is_reused (cs : list Z) (s h : Z) :
  length cs = MAX_CLIENTS →
  0%Z ∉ cs → s ∈ cs →
  ∃ pre suf, cs = pre ++ s :: suf ∧ (s ∉ pre)
             ∧ add_client (remove_client cs s) h = pre ++ h :: suf.
Proof.
  intros Hlen Hfull Hin.
  rewrite remove_client_remove_first by lia.
  rewrite add_client_add_first by (rewrite remove_first_length; lia).
  by apply add_remove_first_full.
Qed.

Lemma freed_slot_is_reused_witness :
  ∃ pre suf,
    [1; 2; 3; 4; 5; 6; 7; 8; 9; 10]%Z = pre ++ 3%Z :: suf ∧ (3%Z ∉ pre)
    ∧ add_client (remove_client [1; 2; 3; 4; 5; 6; 7; 8; 9; 10]%Z 3%Z) 11%Z
      = pre ++ 11%Z :: suf.
Proof.
  apply (freed_slot_is_reused [1; 2; 3; 4; 5; 6; 7; 8; 9; 10]%Z 3%Z 11%Z).
  - reflexivity.
  - apply (bool_decide_unpack (0%Z ∉ _)). vm_compute. exact I.
  - apply (bool_decide_unpack (3%Z ∈ _)). vm_compute. exact I.
Defined.

End RegistryMore.

(** ** More about sessions *)

Module SessionMore.
Import Server ServerProgram CStringFacts RegistryFacts SessionFacts.

Lemma strlen_lt a n : strlen a = Some n → n < length a.
Proof.
  revert n. induction a as [|c a IH]; intros n; simpl; [done|].
  case_decide; [intros [= <-]; lia|].
  destruct (strlen a) as [m|]; simpl; [|done].
  intros [= <-]. specialize (IH m eq_refl). lia.
Qed.

Lemma c_str_Some a text :
  c_str a = Some text → length text < length a ∧ NUL ∉ text.
Proof.
  revert text. induction a as [|c a IH]; intros text.
  - done.
  - rewrite c_str_cons. case_decide.
    + intros [= <-]. split; [simpl; lia|apply not_elem_of_nil].
    + destruct (c_str a) as [t|]; simpl; [|done].
      intros [= <-]. destruct (IH t eq_refl) as [Hlen Hnul].
      split; [simpl; lia|]. apply not_elem_of_cons. split; [congruence|done].
Qed.

Lemma store_length d buf : length (store d buf) = length buf.
Proof.
  unfold store. rewrite length_take, length_app, length_drop. lia.
Qed.

Lemma read_into_length buffer r : length (read_into buffer r).1 = length buffer.
Proof. destruct r; simpl; [apply store_length|done]. Qed.

Lemma read_into_valread buffer r :
  buffer ≠ [] → ((read_into buffer r).2 ≤ 0)%Z ↔ read_ends r = true.
Proof.
  intros Hb. destruct r as [[|c d]|]; simpl.
  - rewrite take_nil. simpl. split; [done|lia].
  - destruct buffer as [|b buffer]; [done|]. simpl. split; [lia|done].
  - split; [done|lia].
Qed.

Lemma zeroed_not_nil : zeroed BUFFER_SIZE ≠ [].
Proof. done. Qed.

(** A turn that finds the stream at its end, or in error. *)
Lemma session_read_ends cs A peer r :
  read_ends r = true →
  session_read cs A peer r
  = Some (remove_client cs (sock A),
          [EvPrint (log_disconnected peer (client_id A));
           EvLock; EvUnlock; EvClose (sock A)],
          Break).
Proof.
  intros Hr. unfold session_read.
  pose proof (read_into_valread (zeroed BUFFER_SIZE) r zeroed_not_nil) as Hv.
  destruct (read_into (zeroed BUFFER_SIZE) r) as [buffer valread].
  cbn [fst snd] in Hv. rewrite decide_True; [done|]. by apply Hv.
Qed.

(** A turn that receives data, when it has a defined result. *)
Lemma session_read_continues cs A peer r cs' tr ctl :
  length cs ≤ MAX_CLIENTS →
  read_ends r = false →
  session_read cs A peer r = Some (cs', tr, ctl) →
  ∃ text d,
    c_str (read_into (zeroed BUFFER_SIZE) r).1 = Some text
    ∧ cs' = cs ∧ ctl = Continue
    ∧ tr = EvPrint (log_sent (client_id A) text)
           :: EvLock
           :: ((λ c, EvSend c d) <$> targets cs (sock A)) ++ [EvUnlock]
    ∧ (int_range (client_id A) → d = tagged (client_id A) text).
Proof.
  intros Hcs Hr. unfold session_read.
  pose proof (read_into_valread (zeroed BUFFER_SIZE) r zeroed_not_nil) as Hv.
  pose proof (read_into_length (zeroed BUFFER_SIZE) r) as Hlen.
  destruct (read_into (zeroed BUFFER_SIZE) r) as [buffer valread].
  cbn [fst snd] in Hv, Hlen. rewrite zeroed_length in Hlen.
  rewrite decide_False by (rewrite Hv; congruence).
  destruct (c_str buffer) as [text|] eqn:Htext; [|done].
  change (Some text ≫= ?f) with (f text). cbv beta.
  destruct (strlen_snprintf (BUFFER_SIZE + 50) (tagged (client_id A) text))
    as [len Hstrlen].
  rewrite (broadcast_message_targets cs (sock A) _ len Hcs Hstrlen).
  change (Some ?l ≫= ?f) with (f l). cbv beta.
  intros [= <- <- <-]. eexists text, _.
  split; [done|]. split; [done|]. split; [done|]. split; [reflexivity|].
  intros Hid. apply c_str_Some in Htext as [Htlen Hnul].
  pose proof (tagged_length (client_id A) text Hid) as Hbound.
  rewrite snprintf_fits in Hstrlen |- * by (unfold BUFFER_SIZE in *; lia).
  replace [NUL] with (NUL :: []) in Hstrlen |- * by done.
  rewrite strlen_app_nul in Hstrlen by by apply tagged_no_nul.
  assert (len = length (tagged (client_id A) text)) as -> by congruence.
  apply take_app_length.
Qed.

Lemma recipients_print_lock t l :
  recipients (EvPrint t :: EvLock :: l) = recipients l.
Proof. done. Qed.

Lemma read_loop_recipients cs A peer reads cs' tr :
  length cs ≤ MAX_CLIENTS →
  read_loop cs A peer reads = Some (cs', tr) →
  sock A ∉ recipients tr.
Proof.
  revert cs tr. induction reads as [|r reads IH]; intros cs tr Hcs; simpl.
  { intros [= <- <-]. apply not_elem_of_nil. }
  destruct (session_read cs A peer r) as [[[cs1 tr1] ctl]|] eqn:Hread;
    simpl; [|done].
  pose proof (session_read_effect _ _ _ _ _ _ _ Hcs Hread) as [Hcs1 Hrec].
  assert (sock A ∉ recipients tr1) as Htr1.
  { intros [[_ ?] _]%Hrec%elem_of_targets. done. }
  destruct ctl.
  - destruct (read_loop cs1 A peer reads) as [[cs2 tr2]|] eqn:Hloop;
      simpl; [|done].
    intros [= <- <-]. rewrite recipients_app, not_elem_of_app.
    split; [done|]. eapply IH; [|exact Hloop].
    destruct Hcs1 as [->| ->]; [done|].
    unfold remove_client. by rewrite remove_client_loop_length.
  - by intros [= <- <-].
Qed.

(** X6.  A session never writes to its own socket: whatever it reads, none
    of the writes of [handle_client] goes to the socket it serves. *)
Theorem session_never_echoes {rand_state : Type}
    (seed_state : Z → rand_state) (next_rand : rand_state → Z * rand_state)
    (cs : list Z) (g : rand_state) (s : Z) (ok : bool) (now : Z)
    (peer : peer_addr) (reads : list read_result)
    (cs' : list Z) (g' : rand_state) (tr : list event) :
  length cs = MAX_CLIENTS →
  handle_client seed_state next_rand cs g s ok now peer reads = Some (cs', g', tr) →
  s ∉ recipients tr.
Proof.
  intros Hcs. unfold handle_client, session_start, rand.
  destruct ok; [|by intros [= <- <- <-]; apply not_elem_of_nil].
  destruct (next_rand (srand seed_state now g)) as [id g2].
  destruct (read_loop (add_client cs s) {| sock := s; client_id := id |} peer reads)
    as [[cs2 tr2]|] eqn:Hloop; simpl; [|done].
  intros [= <- <- <-].
  apply read_loop_recipients in Hloop; [done|].
  unfold add_client. rewrite add_client_loop_length. lia.
Qed.

Lemma session_never_echoes_witness :
  ∃ cs' g' tr,
    handle_client lcg_seed lcg_next (run_ops [Add 4; Add 5]%Z) 0%Z 6%Z true
      1700000000%Z example_peer [ReadBytes (chars "hi"); ReadFail]
    = Some (cs', g', tr)
    ∧ 6%Z ∉ recipients tr.
Proof.
  destruct (handle_client lcg_seed lcg_next (run_ops [Add 4; Add 5]%Z) 0%Z 6%Z
              true 1700000000%Z example_peer [ReadBytes (chars "hi"); ReadFail])
    as [[[cs' g'] tr]|] eqn:Hrun.
  - exists cs', g', tr. split; [reflexivity|].
    apply (session_never_echoes lcg_seed lcg_next (run_ops [Add 4; Add 5]%Z) 0%Z
             6%Z true 1700000000%Z example_peer
             [ReadBytes (chars "hi"); ReadFail] cs' g' tr); [reflexivity|exact Hrun].
  - exfalso. vm_compute in Hrun. discriminate Hrun.
Defined.

Lemma read_loop_ends cs A peer reads cs' tr :
  length cs ≤ MAX_CLIENTS →
  existsb read_ends reads = true →
  read_loop cs A peer reads = Some (cs', tr) →
  cs' = remove_client cs (sock A)
  ∧ ∃ tr0, tr = tr0 ++ [EvClose (sock A)] ∧ ∀ x, EvClose x ∉ tr0.
Proof.
  intros Hcs. revert tr. induction reads as [|r reads IH]; intros tr; simpl; [done|].
  destruct (read_ends r) eqn:Hr; simpl.
  - intros _. rewrite session_read_ends by done. simpl. intros [= <- <-].
    split; [done|].
    exists [EvPrint (log_disconnected peer (client_id A)); EvLock; EvUnlock].
    split; [done|]. intros x Hin.
    repeat (apply elem_of_cons in Hin as [Hin|Hin]; [discriminate Hin|]).
    by apply elem_of_nil in Hin.
  - intros Hex.
    destruct (session_read cs A peer r) as [[[cs1 tr1] ctl]|] eqn:Hread;
      simpl; [|done].
    destruct (session_read_continues _ _ _ _ _ _ _ Hcs Hr Hread)
      as (text & d & _ & -> & -> & -> & _).
    destruct (read_loop cs A peer reads) as [[cs2 tr2]|]; simpl; [|done].
    intros [= <- <-].
    destruct (IH tr2 Hex eq_refl) as (-> & tr0 & -> & Hnone).
    split; [done|].
    exists (EvPrint (log_sent (client_id A) text)
            :: EvLock
            :: (((λ c, EvSend c d) <$> targets cs (sock A)) ++ [EvUnlock]) ++ tr0).
    split; [simpl; by rewrite <-!app_assoc|].
    intros x Hin.
    apply elem_of_cons in Hin as [Hin|Hin]; [discriminate Hin|].
    apply elem_of_cons in Hin as [Hin|Hin]; [discriminate Hin|].
    apply elem_of_app in Hin as [Hin|Hin]; [|by eapply Hnone].
    apply elem_of_app in Hin as [Hin|Hin].
    + apply list_elem_of_fmap in Hin as (c & Hc & _). discriminate Hc.
    + apply list_elem_of_singleton in Hin. discriminate Hin.
Qed.

(** X7.  A session that ends, because its [malloc] failed or because a
    [read] returned no data, leaves the registry as it found it (the socket
    being new to it) and closes its socket once, as the last thing it does. *)
Theorem session_leaves_no_trace {rand_state : Type}
    (seed_state : Z → rand_state) (next_rand : rand_state → Z * rand_state)
    (cs : list Z) (g : rand_state) (s : Z) (ok : bool) (now : Z)
    (peer : peer_addr) (reads : list read_result)
    (cs' : list Z) (g' : rand_state) (tr : list event) :
  length cs = MAX_CLIENTS →
  s ∉ cs →
  ok = false ∨ existsb read_ends reads = true →
  handle_client seed_state next_rand cs g s ok now peer reads = Some (cs', g', tr) →
  cs' = cs ∧ ∃ tr0, tr = tr0 ++ [EvClose s] ∧ ∀ x, EvClose x ∉ tr0.
Proof.
  intros Hcs Hs Hend. unfold handle_client, session_start, rand.
  destruct ok.
  - destruct Hend as [?|Hend]; [done|].
    destruct (next_rand (srand seed_state now g)) as [id g2].
    destruct (read_loop (add_client cs s) {| sock := s; client_id := id |}
                peer reads) as [[cs2 tr2]|] eqn:Hloop; simpl; [|done].
    intros [= <- <- <-].
    apply read_loop_ends in Hloop as (-> & tr0 & -> & Hnone); [|
      unfold add_client; rewrite add_client_loop_length; lia|done].
    simpl. split.
    + rewrite add_client_add_first by lia.
      rewrite remove_client_remove_first by (rewrite add_first_length; lia).
      by apply RegistryMore.remove_add_first.
    + eexists (_ :: _ :: _ :: tr0). split; [done|].
      intros x Hin.
      repeat (apply elem_of_cons in Hin as [Hin|Hin]; [discriminate Hin|]).
      by eapply Hnone.
  - intros [= <- <- <-]. split; [done|].
    eexists [_]. split; [done|].
    intros x Hin. apply list_elem_of_singleton in Hin. discriminate Hin.
Qed.

Lemma session_leaves_no_trace_witness :
  ∃ g' tr0,
    handle_client lcg_seed lcg_next (run_ops [Add 4; Add 5]%Z) 0%Z 6%Z true
      1700000000%Z example_peer [ReadBytes (chars "hi"); ReadBytes []]
    = Some (run_ops [Add 4; Add 5]%Z, g', tr0 ++ [EvClose 6%Z])
    ∧ ∀ x, EvClose x ∉ tr0.
Proof.
  destruct (handle_client lcg_seed lcg_next (run_ops [Add 4; Add 5]%Z) 0%Z 6%Z
              true 1700000000%Z example_peer [ReadBytes (chars "hi"); ReadBytes []])
    as [[[cs' g'] tr]|] eqn:Hrun.
  - destruct (session_leaves_no_trace lcg_seed lcg_next
                (run_ops [Add 4; Add 5]%Z) 0%Z 6%Z true 1700000000%Z example_peer
                [ReadBytes (chars "hi"); ReadBytes []] cs' g' tr)
      as (-> & tr0 & -> & Hnone).
    + reflexivity.
    + apply (bool_decide_unpack (6%Z ∉ _)). vm_compute. exact I.
    + right. reflexivity.
    + exact Hrun.
    + by exists g', tr0.
  - exfalso. vm_compute in Hrun. discriminate Hrun.
Defined.

(** X8.  [message_with_id] is large enough: for every identity in the range
    of [int] and whatever was read, each write of a broadcast carries the whole
    string, the tag followed by the string found in the buffer; [snprintf]
    truncates nothing. *)
Theorem broadcast_is_never_truncated (cs : list Z) (A : client_info_t)
    (peer : peer_addr) (r : read_result) (cs' : list Z) (tr : list event) :
  length cs = MAX_CLIENTS →
  int_range (client_id A) →
  session_read cs A peer r = Some (cs', tr, Continue) →
  ∃ text,
    c_str (read_into (zeroed BUFFER_SIZE) r).1 = Some text
    ∧ ∀ x d, EvSend x d ∈ tr → d = tagged (client_id A) text.
Proof.
  intros Hcs Hid Hread.
  destruct (read_ends r) eqn:Hr.
  { rewrite session_read_ends in Hread by done. discriminate Hread. }
  destruct (session_read_continues cs A peer r cs' tr Continue) as
    (text & d & Htext & _ & _ & -> & Hd); [lia|done|done|].
  exists text. split; [done|]. intros x d' Hin.
  rewrite (Hd Hid) in Hin.
  apply elem_of_cons in Hin as [Hin|Hin]; [discriminate Hin|].
  apply elem_of_cons in Hin as [Hin|Hin]; [discriminate Hin|].
  apply elem_of_app in Hin as [Hin|Hin].
  - apply list_elem_of_fmap in Hin as (c & [= _ ->] & _). done.
  - apply list_elem_of_singleton in Hin. discriminate Hin.
Qed.

Lemma broadcast_is_never_truncated_witness :
  ∃ cs' tr text,
    session_read (run_ops [Add 4; Add 5]%Z) {| sock := 4; client_id := -2147483648 |}
      example_peer (ReadBytes (replicate 1023 "a"%char)) = Some (cs', tr, Continue)
    ∧ c_str (read_into (zeroed BUFFER_SIZE)
               (ReadBytes (replicate 1023 "a"%char))).1 = Some text
    ∧ ∀ x d, EvSend x d ∈ tr → d = tagged (-2147483648) text.
Proof.
  destruct (session_read (run_ops [Add 4; Add 5]%Z)
              {| sock := 4; client_id := -2147483648 |} example_peer
              (ReadBytes (replicate 1023 "a"%char)))
    as [[[cs' tr] ctl]|] eqn:Hrun.
  - assert (ctl = Continue) as ->.
    { vm_compute in Hrun. by injection Hrun as _ _ <-. }
    destruct (broadcast_is_never_truncated (run_ops [Add 4; Add 5]%Z)
                {| sock := 4; client_id := -2147483648 |} example_peer
                (ReadBytes (replicate 1023 "a"%char)) cs' tr)
      as (text & Htext & Hsends).
    + reflexivity.
    + unfold int_range. simpl. lia.
    + exact Hrun.
    + by exists cs', tr, text.
  - exfalso. vm_compute in Hrun. discriminate Hrun.
Defined.

(** X9.  The server writes to accepted sockets only: in every run that
    starts with the empty registry, each socket a broadcast writes to was
    given to a session by a step of the run. *)
Theorem only_accepted_sockets_are_written {rand_state : Type}
    (seed_state : Z → rand_state) (next_rand : rand_state → Z * rand_state)
    (g : rand_state) (acts : list action)
    (st : list Z * rand_state) (tr : list event) (x : Z) :
  system_run seed_state next_rand (init_sockets, g) acts = Some (st, tr) →
  x ∈ recipients tr →
  existsb (accepts x) acts = true.
Proof.
  intros Hrun Hx.
  destruct (existsb (accepts x) acts) eqn:Hex; [done|]. exfalso.
  revert Hx.
  eapply (unregistered_never_written seed_state next_rand x acts init_sockets g);
    [reflexivity| | |exact Hrun].
  - destruct (decide (x = 0%Z)) as [?|Hx0]; [by left|right].
    intros Hin. apply elem_of_replicate in Hin as [? _]. done.
  - clear Hrun. induction acts as [|a acts IH]; [done|].
    simpl in Hex |- *. apply orb_false_iff in Hex as [-> Hex]. simpl. by apply IH.
Qed.

Lemma only_accepted_sockets_are_written_witness :
  ∃ st tr,
    system_run lcg_seed lcg_next (init_sockets, 0%Z)
      [Accept 4 true 1700000000 example_peer;
       Accept 5 true 1700000000 example_peer;
       Input {| sock := 4; client_id := 25939 |} example_peer
         (ReadBytes (chars "hi"))]
    = Some (st, tr)
    ∧ 5%Z ∈ recipients tr
    ∧ existsb (accepts 5%Z)
        [Accept 4 true 1700000000 example_peer;
         Accept 5 true 1700000000 example_peer;
         Input {| sock := 4; client_id := 25939 |} example_peer
           (ReadBytes (chars "hi"))] = true.
Proof.
  eexists _, _. split; [vm_compute; reflexivity|].
  assert (5%Z ∈ [5%Z]) as Hin by (by left).
  split; [exact Hin|].
  eapply (only_accepted_sockets_are_written lcg_seed lcg_next 0%Z _ _ _ 5%Z);
    [vm_compute; reflexivity|exact Hin].
Defined.

End SessionMore.

(** ** More about the client *)

Module ClientMore.
Import Server ServerProgram Client ClientProgram.
Import CStringFacts RegistryFacts SessionFacts SessionMore ClientFacts.

(** X11.  The send loop never reads past its buffer: for every input and
    every number of turns the loop has a defined result, each string function
    finding the terminator that [fgets] or [memset] left in the buffer. *)
Theorem send_loop_stays_in_buffer (fuel : nat) (sock : Z) (stdin : list ascii) :
  ∃ tr ctl, start_client fuel sock stdin = Some (tr, ctl).
Proof.
  revert stdin. induction fuel as [|fuel IH]; intros stdin; simpl;
    [by eexists _, _|].
  destruct (send_turn_defined sock stdin) as [[[tr ctl] rest] ->]. simpl.
  destruct ctl; [|by eexists _, _].
  destruct (IH rest) as (tr' & ctl' & ->). by eexists _, _.
Qed.

Lemma send_turn_eof sock :
  send_turn sock [] = Some ([EvPrint prompt; EvSend sock []], Continue, []).
Proof. reflexivity. Qed.

(** X12.  At the end of the input the send loop does not stop: every turn
    prints the prompt and calls [send] with no bytes, and the socket is not
    closed. *)
Theorem send_loop_spins_at_eof (fuel : nat) (sock : Z) :
  start_client fuel sock []
  = Some (mjoin (replicate fuel [EvPrint prompt; EvSend sock []]), Continue).
Proof.
  induction fuel as [|fuel IH]; [done|].
  change (start_client (S fuel) sock [])
    with ('(tr, ctl, rest) ← send_turn sock [];
          match ctl with
          | Break => Some (tr ++ [EvClose sock], Break)
          | Continue =>
              '(tr', ctl') ← start_client fuel sock rest;
              Some (tr ++ tr', ctl')
          end).
  rewrite send_turn_eof. simpl. rewrite IH. done.
Qed.

Lemma strcspn_take a reject i :
  strcspn a reject = Some i →
  i < length a ∧ ∀ c, c ∈ take i a → c ≠ NUL ∧ c ∉ reject.
Proof.
  revert i. induction a as [|c a IH]; intros i; simpl; [done|].
  case_decide as Hc.
  - intros [= <-]. split; [lia|]. simpl. by intros c' ?%elem_of_nil.
  - destruct (strcspn a reject) as [j|]; simpl; [|done].
    intros [= <-]. destruct (IH j eq_refl) as [Hj Hin]. split; [lia|].
    simpl. intros c' [->|Hc']%elem_of_cons; [naive_solver|by apply Hin].
Qed.

Lemma fgets_length buffer stdin :
  length (fgets buffer stdin).1 = length buffer.
Proof.
  unfold fgets. destruct (fgets_chars (length buffer - 1) stdin) as [got rest].
  destruct got; simpl; [done|apply store_length].
Qed.

(** The shape of a turn: some [line] without newline or NUL, shorter than
    the buffer, is compared with "exit" and sent. *)
Lemma send_turn_shape sock stdin :
  ∃ line rest,
    send_turn sock stdin
    = Some (if decide (line = chars "exit")
            then ([EvPrint prompt; EvPrint exiting], Break, rest)
            else ([EvPrint prompt; EvSend sock line], Continue, rest))
    ∧ (LF ∉ line) ∧ (NUL ∉ line) ∧ length line < BUFFER_SIZE.
Proof.
  unfold send_turn.
  pose proof (fgets_terminated stdin) as Hnul.
  pose proof (fgets_length (zeroed BUFFER_SIZE) stdin) as Hlen.
  rewrite zeroed_length in Hlen.
  destruct (fgets (zeroed BUFFER_SIZE) stdin) as [buffer rest].
  cbn [fst] in Hnul, Hlen.
  destruct (strcspn_defined buffer [LF] Hnul) as [i Hi].
  rewrite Hi. change (Some i ≫= ?f) with (f i). cbv beta.
  rewrite (c_str_cut _ _ _ Hi). change (Some ?l ≫= ?f) with (f l). cbv beta.
  apply strcspn_take in Hi as [Hlt Hin].
  exists (take i buffer), rest. split; [by case_decide|].
  split; [|split].
  - intros H. apply Hin in H as [_ H]. apply H. by left.
  - intros H. by apply Hin in H as [H _].
  - rewrite length_take. lia.
Qed.

Lemma start_client_sends fuel sock stdin tr ctl x d :
  start_client fuel sock stdin = Some (tr, ctl) →
  EvSend x d ∈ tr →
  x = sock.
Proof.
  revert stdin tr ctl. induction fuel as [|fuel IH]; intros stdin tr ctl.
  { intros [= <- <-] Hin. by apply elem_of_nil in Hin. }
  change (start_client (S fuel) sock stdin)
    with ('(tr, ctl, rest) ← send_turn sock stdin;
          match ctl with
          | Break => Some (tr ++ [EvClose sock], Break)
          | Continue =>
              '(tr', ctl') ← start_client fuel sock rest;
              Some (tr ++ tr', ctl')
          end).
  destruct (send_turn_shape sock stdin) as (line & rest & -> & _).
  case_decide; simpl.
  - intros [= <- <-] Hin.
    repeat (apply elem_of_cons in Hin as [Hin|Hin]; [discriminate Hin|]).
    by apply elem_of_nil in Hin.
  - destruct (start_client fuel sock rest) as [[tr' ctl']|] eqn:Hloop;
      simpl; [|done].
    intros [= <- <-] Hin.
    apply elem_of_cons in Hin as [Hin|Hin]; [discriminate Hin|].
    apply elem_of_cons in Hin as [Hin|Hin]; [|by eapply IH].
    by injection Hin as -> _.
Qed.

(** X13.  What the send loop writes: every [send] goes to the connected
    socket and carries fewer than [BUFFER_SIZE] bytes, none of which is a
    newline or a NUL. *)
Theorem sent_lines_are_clean (fuel : nat) (sock : Z) (stdin : list ascii)
    (tr : list event) (ctl : loop_ctl) (x : Z) (d : list ascii) :
  start_client fuel sock stdin = Some (tr, ctl) →
  EvSend x d ∈ tr →
  x = sock ∧ (LF ∉ d) ∧ (NUL ∉ d) ∧ length d < BUFFER_SIZE.
Proof.
  revert stdin tr ctl. induction fuel as [|fuel IH]; intros stdin tr ctl.
  { intros [= <- <-] Hin. by apply elem_of_nil in Hin. }
  change (start_client (S fuel) sock stdin)
    with ('(tr, ctl, rest) ← send_turn sock stdin;
          match ctl with
          | Break => Some (tr ++ [EvClose sock], Break)
          | Continue =>
              '(tr', ctl') ← start_client fuel sock rest;
              Some (tr ++ tr', ctl')
          end).
  destruct (send_turn_shape sock stdin) as (line & rest & -> & Hlf & Hnul & Hlen).
  case_decide; simpl.
  - intros [= <- <-] Hin.
    repeat (apply elem_of_cons in Hin as [Hin|Hin]; [discriminate Hin|]).
    by apply elem_of_nil in Hin.
  - destruct (start_client fuel sock rest) as [[tr' ctl']|] eqn:Hloop;
      simpl; [|done].
    intros [= <- <-] Hin.
    apply elem_of_cons in Hin as [Hin|Hin]; [discriminate Hin|].
    apply elem_of_cons in Hin as [Hin|Hin]; [|by eapply IH].
    by injection Hin as -> ->.
Qed.

Lemma sent_lines_are_clean_witness :
  ∃ tr ctl,
    start_client 3 3%Z (chars "hello" ++ LF :: chars "exit" ++ [LF]) = Some (tr, ctl)
    ∧ EvSend 3%Z (chars "hello") ∈ tr
    ∧ (LF ∉ chars "hello") ∧ (NUL ∉ chars "hello")
    ∧ length (chars "hello") < BUFFER_SIZE.
Proof.
  eexists _, _. split; [vm_compute; reflexivity|].
  assert (EvSend 3%Z (chars "hello")
          ∈ [EvPrint prompt; EvSend 3%Z (chars "hello"); EvPrint prompt;
             EvPrint exiting; EvClose 3%Z]) as Hin by (right; left).
  split; [exact Hin|].
  eapply (sent_lines_are_clean 3 3%Z (chars "hello" ++ LF :: chars "exit" ++ [LF])
            _ _ 3%Z (chars "hello")); [vm_compute; reflexivity|exact Hin].
Defined.

Lemma fgets_chars_spec n stdin :
  ∃ line rest,
    (LF ∉ line)
    ∧ ((fgets_chars n stdin = (line ++ [LF], rest)
        ∧ stdin = line ++ LF :: rest ∧ length line < n)
       ∨ (fgets_chars n stdin = (line, rest)
          ∧ stdin = line ++ rest ∧ length line ≤ n
          ∧ (rest = [] ∨ length line = n))).
Proof.
  revert stdin. induction n as [|n IH]; intros stdin.
  { exists [], stdin. split; [apply not_elem_of_nil|]. right. simpl. auto. }
  destruct stdin as [|c stdin].
  { exists [], []. split; [apply not_elem_of_nil|]. right. simpl.
    split; [done|]. split; [done|]. split; [lia|by left]. }
  simpl. destruct (decide (c = LF)) as [->|Hc].
  { exists [], stdin. split; [apply not_elem_of_nil|]. left. simpl.
    split; [done|]. split; [done|lia]. }
  destruct (IH stdin) as (line & rest & Hlf & Hcase).
  exists (c :: line), rest. split; [by apply not_elem_of_cons|].
  destruct Hcase as [(-> & -> & Hlen)|(-> & -> & Hlen & Hfull)]; [left|right];
    simpl; (split; [done|]); (split; [done|]).
  - lia.
  - split; [lia|]. destruct Hfull as [->|Hfull]; [by left|right; lia].
Qed.

Lemma strcspn_nul l x reject :
  NUL ∉ l → (∀ c, c ∈ l → c ∉ reject) →
  strcspn (l ++ NUL :: x) reject = Some (length l).
Proof.
  induction l as [|c l IH]; intros Hnul Hrej; [done|]. simpl.
  apply not_elem_of_cons in Hnul as [? ?].
  rewrite decide_False.
  - rewrite IH; [done|done|]. intros c' Hc'. apply Hrej. by right.
  - intros [?|Hin]; [done|]. revert Hin. apply Hrej. by left.
Qed.

(** A turn on input that ends, or fills the buffer, before any newline. *)
Lemma send_turn_no_newline sock line rest :
  line ≠ [] → LF ∉ line → NUL ∉ line → length line < BUFFER_SIZE →
  fgets_chars (BUFFER_SIZE - 1) (line ++ rest) = (line, rest) →
  send_turn sock (line ++ rest)
  = Some (if decide (line = chars "exit")
          then ([EvPrint prompt; EvPrint exiting], Break, rest)
          else ([EvPrint prompt; EvSend sock line], Continue, rest)).
Proof.
  intros Hne Hlf Hnul Hlen Hget. unfold send_turn, fgets.
  rewrite zeroed_length, Hget.
  assert (∀ (X : Type) (a b : X),
            match line with [] => a | _ :: _ => b end = b) as ->
    by (intros; by destruct line).
  rewrite store_zeroed by (rewrite length_app; simpl; lia).
  rewrite <-!app_assoc. simpl.
  rewrite strcspn_nul; [|done|].
  2:{ intros c Hc Hin. apply list_elem_of_singleton in Hin. congruence. }
  simpl. replace (length line) with (length line + 0) by lia.
  rewrite insert_app_r. simpl.
  rewrite c_str_app_nul, until_nul_id by done. simpl.
  by case_decide.
Qed.

(** X14.  No input is lost.  On input without NUL, a turn of the send loop
    takes a piece [line] off the front and hands it on whole ("exit" apart):
    the piece ends at the first newline, which is dropped, or at the end of
    the input, or after [BUFFER_SIZE - 1] characters, and the rest is left for
    the next turn. *)
Theorem send_turn_takes_a_piece (sock : Z) (stdin : list ascii) :
  NUL ∉ stdin → stdin ≠ [] →
  ∃ line rest,
    send_turn sock stdin
    = Some (if decide (line = chars "exit")
            then ([EvPrint prompt; EvPrint exiting], Break, rest)
            else ([EvPrint prompt; EvSend sock line], Continue, rest))
    ∧ (LF ∉ line)
    ∧ (stdin = line ++ LF :: rest
       ∨ (stdin = line ++ rest
          ∧ (rest = [] ∨ length line = BUFFER_SIZE - 1))).
Proof.
  intros Hnul Hne.
  destruct (fgets_chars_spec (BUFFER_SIZE - 1) stdin)
    as (line & rest & Hlf & [(Hget & -> & Hlen)|(Hget & -> & Hlen & Hfull)]);
    exists line, rest.
  - split; [|split; [done|by left]].
    apply send_turn_line; [done| |unfold BUFFER_SIZE in *; lia].
    intros Hin. apply Hnul. apply elem_of_app. by left.
  - split; [|split; [done|by right]].
    apply send_turn_no_newline; [|done| |unfold BUFFER_SIZE in *; lia|done].
    + intros ->. destruct Hfull as [->|Hfull]; [done|].
      simpl in Hfull. unfold BUFFER_SIZE in Hfull. lia.
    + intros Hin. apply Hnul. apply elem_of_app. by left.
Qed.

Lemma send_turn_takes_a_piece_witness :
  ∃ line rest,
    send_turn 3%Z (replicate 1030 "a"%char ++ [LF])
    = Some (if decide (line = chars "exit")
            then ([EvPrint prompt; EvPrint exiting], Break, rest)
            else ([EvPrint prompt; EvSend 3%Z line], Continue, rest))
    ∧ (LF ∉ line)
    ∧ (replicate 1030 "a"%char ++ [LF] = line ++ LF :: rest
       ∨ (replicate 1030 "a"%char ++ [LF] = line ++ rest
          ∧ (rest = [] ∨ length line = BUFFER_SIZE - 1))).
Proof.
  apply (send_turn_takes_a_piece 3%Z (replicate 1030 "a"%char ++ [LF])).
  - apply (bool_decide_unpack (NUL ∉ _)). vm_compute. exact I.
  - discriminate.
Defined.

Lemma start_client_close fuel sock stdin tr ctl :
  start_client fuel sock stdin = Some (tr, ctl) →
  ∀ x, EvClose x ∈ tr ↔ x = sock ∧ ctl = Break.
Proof.
  revert stdin tr ctl. induction fuel as [|fuel IH]; intros stdin tr ctl.
  { intros [= <- <-] x. split; [by intros ?%elem_of_nil|by intros [_ ?]]. }
  change (start_client (S fuel) sock stdin)
    with ('(tr, ctl, rest) ← send_turn sock stdin;
          match ctl with
          | Break => Some (tr ++ [EvClose sock], Break)
          | Continue =>
              '(tr', ctl') ← start_client fuel sock rest;
              Some (tr ++ tr', ctl')
          end).
  destruct (send_turn_shape sock stdin) as (line & rest & -> & _).
  case_decide; simpl.
  - intros [= <- <-] x. split.
    + intros Hin.
      repeat (apply elem_of_cons in Hin as [Hin|Hin]; [try discriminate Hin|]).
      * by injection Hin as ->.
      * by apply elem_of_nil in Hin.
    + intros [-> _]. do 2 right. by left.
  - destruct (start_client fuel sock rest) as [[tr' ctl']|] eqn:Hloop;
      simpl; [|done].
    intros [= <- <-] x. rewrite <-(IH _ _ _ Hloop x). split.
    + intros Hin.
      repeat (apply elem_of_cons in Hin as [Hin|Hin]; [discriminate Hin|]). done.
    + intros Hin. by do 2 right.
Qed.

(** Steps among which there is neither a [close] nor a [send]. *)
Lemma quiet_steps (l : list client_step) (sock : Z) (e : client_end) :
  e ≠ LoopLeft →
  (∀ s, s ∈ l → (∀ x, s ≠ Sys (EvClose x)) ∧ (∀ y d, s ≠ Sys (EvSend y d))) →
  (∀ x, Sys (EvClose x) ∈ l ↔ x = sock ∧ e = LoopLeft)
  ∧ (∀ x d, Sys (EvSend x d) ∈ l →
       x = sock ∧ (e = LoopLeft ∨ e = StillRunning)).
Proof.
  intros He Hl. split.
  - intros x. split; [|by intros [_ ?]].
    intros Hin. destruct (Hl _ Hin) as [Hc _]. by destruct (Hc x).
  - intros x d Hin. destruct (Hl _ Hin) as [_ Hs]. by destruct (Hs x d).
Qed.

(** X15.  [start_client] closes its socket only after the loop was left
    through "exit".  When the address is refused or the connection fails it
    returns with the socket still open, and nothing is sent unless the
    connection was made. *)
Theorem client_socket_is_closed_on_exit_only {rand_state : Type}
    (seed_state : Z → rand_state) (next_rand : rand_state → Z * rand_state)
    (g : rand_state) (now : Z) (calls : client_calls)
    (ip : list ascii) (port : Z) (fuel : nat) (stdin : list ascii)
    (steps : list client_step) (e : client_end) :
  start_client_program seed_state next_rand g now calls ip port fuel stdin
  = Some (steps, e) →
  (∀ x, Sys (EvClose x) ∈ steps ↔ x = socket_result calls ∧ e = LoopLeft)
  ∧ (∀ x d, Sys (EvSend x d) ∈ steps →
       x = socket_result calls ∧ (e = LoopLeft ∨ e = StillRunning)).
Proof.
  unfold start_client_program.
  destruct (rand next_rand (srand seed_state now g)) as [id g'].
  case_decide.
  { intros [= <- <-]. apply quiet_steps; [done|].
    intros s Hs.
    repeat (apply elem_of_cons in Hs as [->|Hs]; [by split|]).
    by apply elem_of_nil in Hs. }
  case_decide.
  { intros [= <- <-]. apply quiet_steps; [done|].
    intros s Hs.
    repeat (apply elem_of_cons in Hs as [->|Hs]; [by split|]).
    by apply elem_of_nil in Hs. }
  case_decide.
  { intros [= <- <-]. apply quiet_steps; [done|].
    intros s Hs.
    repeat (apply elem_of_cons in Hs as [->|Hs]; [by split|]).
    by apply elem_of_nil in Hs. }
  destruct (start_client fuel (socket_result calls) stdin) as [[tr ctl]|] eqn:Hloop;
    simpl; [|done].
  intros [= <- <-].
  pose proof (start_client_close _ _ _ _ _ Hloop) as Hclose.
  split.
  - intros x. split.
    + intros Hin.
      repeat (apply elem_of_cons in Hin as [Hin|Hin]; [discriminate Hin|]).
      apply list_elem_of_fmap in Hin as (ev & [= <-] & Hev).
      apply Hclose in Hev as [-> ->]. done.
    + intros [-> He]. destruct ctl; [done|]. do 3 right.
      apply list_elem_of_fmap_2. by apply Hclose.
  - intros x d Hin.
    repeat (apply elem_of_cons in Hin as [Hin|Hin]; [discriminate Hin|]).
    apply list_elem_of_fmap in Hin as (ev & [= <-] & Hev).
    rewrite (start_client_sends _ _ _ _ _ _ _ Hloop Hev).
    split; [done|]. destruct ctl; [by right|by left].
Qed.

Lemma client_socket_is_closed_on_exit_only_witness :
  ∃ steps,
    start_client_program lcg_seed lcg_next 0%Z 1700000000%Z
      {| socket_result := 3; inet_pton_result := 1; connect_result := -1 |}
      (chars "10.0.0.1") 8080%Z 5 (chars "hello" ++ [LF])
    = Some (steps, ConnectFailed)
    ∧ ∀ x, Sys (EvClose x) ∉ steps.
Proof.
  eexists. split; [vm_compute; reflexivity|].
  intros x Hin.
  destruct (client_socket_is_closed_on_exit_only lcg_seed lcg_next 0%Z
              1700000000%Z
              {| socket_result := 3; inet_pton_result := 1; connect_result := -1 |}
              (chars "10.0.0.1") 8080%Z 5 (chars "hello" ++ [LF]) _ ConnectFailed
              ltac:(vm_compute; reflexivity)) as [Hclose _].
  apply Hclose in Hin as [_ He]. discriminate He.
Defined.

(** *** The receiving thread *)

Lemma receive_turn_ends r : read_ends r = true → receive_turn r = Some [].
Proof.
  intros Hr. unfold receive_turn.
  pose proof (read_into_valread (zeroed BUFFER_SIZE) r zeroed_not_nil) as Hv.
  destruct (read_into (zeroed BUFFER_SIZE) r) as [buffer valread].
  cbn [fst snd] in Hv. rewrite decide_False; [done|].
  apply Hv in Hr. lia.
Qed.

Lemma receive_turn_data P :
  0 < length P < BUFFER_SIZE →
  receive_turn (ReadBytes P) = Some [EvPrint (LF :: until_nul P ++ [LF])].
Proof.
  intros [Hpos Hlt]. unfold receive_turn, read_into.
  rewrite zeroed_length, (take_ge P) by lia.
  rewrite store_zeroed_nul by done.
  rewrite decide_True by lia.
  by rewrite c_str_app_nul.
Qed.

Lemma receive_turn_prints r tr :
  receive_turn r = Some tr → ∀ e, e ∈ tr → ∃ t, e = EvPrint t.
Proof.
  unfold receive_turn.
  destruct (read_into (zeroed BUFFER_SIZE) r) as [buffer valread].
  case_decide.
  - destruct (c_str buffer) as [text|]; simpl; [|done].
    intros [= <-] e Hin. apply list_elem_of_singleton in Hin. by eexists.
  - intros [= <-] e Hin. by apply elem_of_nil in Hin.
Qed.

(** X16.  The receiving thread only prints, and it does not stop at the end
    of the stream: a [read] that returns no data or fails leaves no trace, and
    the reads after it are handled as if it had not been there. *)
Theorem receiver_ignores_end_of_stream (reads : list read_result) :
  receive_messages reads
  = receive_messages (filter (λ r, read_ends r = false) reads)
  ∧ ∀ tr, receive_messages reads = Some tr → ∀ e, e ∈ tr → ∃ t, e = EvPrint t.
Proof.
  split.
  - induction reads as [|r reads IH]; [done|].
    rewrite filter_cons. destruct (read_ends r) eqn:Hr.
    + rewrite decide_False by done. simpl.
      rewrite receive_turn_ends by done. simpl. rewrite <-IH.
      by destruct (receive_messages reads).
    + rewrite decide_True by done. simpl. by rewrite IH.
  - induction reads as [|r reads IH]; intros tr; simpl.
    { intros [= <-] e Hin. by apply elem_of_nil in Hin. }
    destruct (receive_turn r) as [tr1|] eqn:Hturn; simpl; [|done].
    destruct (receive_messages reads) as [tr2|]; simpl; [|done].
    intros [= <-] e [Hin|Hin]%elem_of_app.
    + by eapply receive_turn_prints.
    + by eapply IH.
Qed.

Lemma receiver_ignores_end_of_stream_witness :
  receive_messages
    [ReadBytes (chars "hi"); ReadBytes []; ReadFail; ReadBytes (chars "yo")]
  = Some [EvPrint (LF :: chars "hi" ++ [LF]); EvPrint (LF :: chars "yo" ++ [LF])]
  ∧ ∀ e, e ∈ [EvPrint (LF :: chars "hi" ++ [LF]);
              EvPrint (LF :: chars "yo" ++ [LF])] → ∃ t, e = EvPrint t.
Proof.
  destruct (receiver_ignores_end_of_stream
              [ReadBytes (chars "hi"); ReadBytes []; ReadFail;
               ReadBytes (chars "yo")]) as [Hsame Hprints].
  split.
  - rewrite Hsame. vm_compute. reflexivity.
  - apply Hprints. vm_compute. reflexivity.
Defined.

Lemma tagged_lower id text : length text + 11 ≤ length (tagged id text).
Proof.
  unfold tagged. rewrite !length_app.
  change (length (chars "[Client ")) with 8.
  change (length (chars "]: ")) with 3. lia.
Qed.

(** X17.  From one keyboard to the other screen.  A line typed at a client,
    without NUL and short enough for the tagged message to fit a buffer, is
    sent as it is; the server session that reads it writes the tag and the
    line to a peer registered in one slot; and the receiving thread of that
    peer, reading this, prints the tag and the line between two newlines. *)
Theorem line_reaches_the_peer (a : Z) (l rest : list ascii)
    (cs : list Z) (A : client_info_t) (peer : peer_addr) (B : Z) :
  LF ∉ l → NUL ∉ l → l ≠ [] → l ≠ chars "exit" →
  int_range (client_id A) →
  length (tagged (client_id A) l) < BUFFER_SIZE →
  length cs = MAX_CLIENTS →
  B ≠ 0%Z → B ≠ sock A → slots_of cs B = 1 →
  ∃ tr,
    send_turn a (l ++ LF :: rest)
    = Some ([EvPrint prompt; EvSend a l], Continue, rest)
    ∧ session_read cs A peer (ReadBytes l) = Some (cs, tr, Continue)
    ∧ delivered B tr = [tagged (client_id A) l]
    ∧ receive_messages [ReadBytes (tagged (client_id A) l)]
      = Some [EvPrint (LF :: tagged (client_id A) l ++ [LF])].
Proof.
  intros Hlf Hnul Hne Hexit Hid Hfit Hcs HB0 HBA Hone.
  pose proof (tagged_lower (client_id A) l) as Hlow.
  assert (0 < length l) as Hpos by (destruct l; [done|simpl; lia]).
  eexists. split; [|split; [|split]].
  - pose proof (send_turn_line a l rest Hlf Hnul) as Hturn.
    unfold line_handled in Hturn. rewrite decide_False in Hturn by done.
    apply Hturn. lia.
  - apply session_read_data; [lia|done|lia].
  - rewrite until_nul_id by done.
    change (delivered B (EvPrint ?t :: EvLock :: ?x)) with (delivered B x).
    rewrite delivered_app, delivered_sends, slots_of_targets.
    rewrite decide_True by done. rewrite Hone. done.
  - simpl. rewrite receive_turn_data by lia.
    rewrite until_nul_id by by apply tagged_no_nul. done.
Qed.

Lemma line_reaches_the_peer_witness :
  ∃ tr,
    send_turn 3%Z (chars "hello" ++ LF :: [])
    = Some ([EvPrint prompt; EvSend 3%Z (chars "hello")], Continue, [])
    ∧ session_read (run_ops [Add 4; Add 5]%Z) {| sock := 4; client_id := 7 |}
        example_peer (ReadBytes (chars "hello"))
      = Some (run_ops [Add 4; Add 5]%Z, tr, Continue)
    ∧ delivered 5%Z tr = [tagged 7 (chars "hello")]
    ∧ receive_messages [ReadBytes (tagged 7 (chars "hello"))]
      = Some [EvPrint (LF :: tagged 7 (chars "hello") ++ [LF])].
Proof.
  apply (line_reaches_the_peer 3%Z (chars "hello") [] (run_ops [Add 4; Add 5]%Z)
           {| sock := 4; client_id := 7 |} example_peer 5%Z).
  - apply (bool_decide_unpack (LF ∉ _)). vm_compute. exact I.
  - apply (bool_decide_unpack (NUL ∉ _)). vm_compute. exact I.
  - discriminate.
  - discriminate.
  - unfold int_range. simpl. lia.
  - vm_compute. lia.
  - reflexivity.
  - discriminate.
  - discriminate.
  - reflexivity.
Defined.

End ClientMore.

(** ** More about the command line and the listener *)

Module ProgramMore.
Import Server ServerProgram Client ClientProgram Main.
Import CStringFacts.

(** *** [atoi] on what [%d] prints *)

Lemma digit_value_pretty d :
  (d < 10)%N → digit_value (pretty_N_char d) = Some (Z.of_N d).
Proof.
  intros Hd.
  assert (d = 0 ∨ d = 1 ∨ d = 2 ∨ d = 3 ∨ d = 4 ∨ d = 5 ∨ d = 6 ∨ d = 7
          ∨ d = 8 ∨ d = 9)%N as Hcases by lia.
  repeat (destruct Hcases as [->|Hcases]; [done|]). by subst.
Qed.

Lemma digit_not_sign c d :
  digit_value c = Some d →
  Ascii.is_space c = false ∧ c ≠ "-"%char ∧ c ≠ "+"%char.
Proof.
  unfold digit_value. destruct c as [[] [] [] [] [] [] [] []]; simpl; try done.
Qed.

Lemma atoi_digits_pretty x s acc junk :
  ∃ k : nat,
    atoi_digits acc (chars (pretty_N_go x s) ++ junk)
    = atoi_digits (acc * 10 ^ Z.of_nat k + Z.of_N x)%Z (chars s ++ junk).
Proof.
  revert s. induction (N.lt_wf_0 x) as [x _ IH]; intros s.
  destruct (decide (x = 0%N)) as [->|Hx].
  { exists 0. rewrite pretty_N_go_0. f_equal. simpl. lia. }
  rewrite pretty_N_go_step by lia.
  destruct (IH (x `div` 10)%N ltac:(apply N.div_lt; lia)
              (String (pretty_N_char (x `mod` 10)) s)) as [k ->].
  exists (S k). simpl.
  rewrite digit_value_pretty by (apply N.mod_lt; lia).
  f_equal. rewrite Nat2Z.inj_succ, Z.pow_succ_r by lia.
  pose proof (N.div_mod x 10 ltac:(done)) as Hdm.
  rewrite N2Z.inj_div, N2Z.inj_mod.
  pose proof (Z.div_mod (Z.of_N x) 10 ltac:(done)) as Hz.
  change (Z.of_N 10) with 10%Z. lia.
Qed.

Lemma atoi_digits_stop acc junk :
  (∀ c, head junk = Some c → digit_value c = None) →
  atoi_digits acc junk = acc.
Proof.
  destruct junk as [|c junk]; [done|]. intros H. simpl. by rewrite (H c).
Qed.

Lemma pretty_N_go_head x s :
  (0 < x)%N →
  ∃ c rest d, chars (pretty_N_go x s) = c :: rest ∧ digit_value c = Some d.
Proof.
  revert s. induction (N.lt_wf_0 x) as [x _ IH]; intros s Hx.
  rewrite pretty_N_go_step by done.
  destruct (decide (x `div` 10 = 0)%N) as [->|Hq].
  - rewrite pretty_N_go_0. simpl. eexists _, _, _. split; [done|].
    apply digit_value_pretty. apply N.mod_lt. lia.
  - apply IH; [apply N.div_lt; lia|by apply N.neq_0_lt_0].
Qed.

Lemma atoi_positive p junk :
  (∀ c, head junk = Some c → digit_value c = None) →
  atoi_digits 0 (chars (pretty p) ++ junk) = Z.pos p
  ∧ ∃ c rest d, chars (pretty p) = c :: rest ∧ digit_value c = Some d.
Proof.
  intros Hjunk. unfold pretty, pretty_positive, pretty, pretty_N.
  rewrite decide_False by done. split.
  - destruct (atoi_digits_pretty (N.pos p) "" 0 junk) as [k ->].
    simpl. by rewrite atoi_digits_stop.
  - by apply pretty_N_go_head.
Qed.

(** [atoi] reads back what [%d] prints: for every [int] the decimal text
    gives the number, and text that follows it, starting with something other
    than a digit, is ignored. *)
Lemma atoi_reads_decimal (z : Z) (junk : list ascii) :
  int_range z →
  (∀ c, head junk = Some c → digit_value c = None) →
  atoi (fmt_d z ++ junk) = Some z.
Proof.
  intros Hz Hjunk. unfold atoi, fmt_d.
  destruct z as [|p|p].
  - change (chars (pretty 0%Z)) with ["0"%char]. simpl.
    rewrite atoi_digits_stop by done. by rewrite decide_True.
  - change (pretty (Z.pos p)) with (pretty p).
    destruct (atoi_positive p junk Hjunk) as [Hval (c & rest & d & Hc & Hd)].
    apply digit_not_sign in Hd as (Hsp & Hminus & Hplus).
    rewrite Hc in Hval |- *. simpl. rewrite Hsp.
    rewrite !(decide_False (P := c = "-"%char)) by done.
    rewrite !(decide_False (P := c = "+"%char)) by done.
    change ((c :: rest) ++ junk) with (c :: rest ++ junk) in Hval.
    rewrite Hval. by rewrite decide_True.
  - change (pretty (Z.neg p)) with ("-" +:+ pretty p).
    rewrite chars_app. simpl.
    destruct (atoi_positive p junk Hjunk) as [-> _].
    by rewrite decide_True.
Qed.

(** X18.  [prog client <ip> <port>], with the port in decimal, calls
    [start_client] with that address and that number; what follows the number
    in the argument, starting with something other than a digit, is ignored.
    [start_client], once it has a socket and the address is accepted, connects
    to the port number modulo 65536, which is the number itself for a valid
    port. *)
Theorem client_command_connects (prog ip : list ascii) (p : Z)
    (junk : list ascii) :
  int_range p →
  (∀ c, head junk = Some c → digit_value c = None) →
  main [prog; chars "client"; ip; fmt_d p ++ junk] = Some (Connect ip p)
  ∧ ∀ {rand_state : Type} (seed_state : Z → rand_state)
      (next_rand : rand_state → Z * rand_state) (g : rand_state) (now : Z)
      (calls : client_calls) (fuel : nat) (stdin : list ascii)
      (steps : list client_step) (e : client_end),
      (0 ≤ socket_result calls)%Z → (0 < inet_pton_result calls)%Z →
      start_client_program seed_state next_rand g now calls ip p fuel stdin
      = Some (steps, e) →
      steps !! 1 = Some (SysConnect (socket_result calls) ip (p `mod` 2 ^ 16)%Z)
      ∧ ((0 ≤ p < 2 ^ 16)%Z → (p `mod` 2 ^ 16)%Z = p).
Proof.
  intros Hp Hjunk. split.
  - unfold main. simpl.
    by rewrite (atoi_reads_decimal p junk Hp Hjunk).
  - intros rand_state seed_state next_rand g now calls fuel stdin steps e Hs Hi.
    unfold start_client_program.
    destruct (rand next_rand (srand seed_state now g)) as [id g'].
    rewrite decide_False, decide_False by lia.
    intros Hrun. split; [|intros ?; by apply Z.mod_small].
    case_decide; [by injection Hrun as <- <-|].
    destruct (start_client fuel (socket_result calls) stdin) as [[tr ctl]|];
      simpl in Hrun; [|done].
    by injection Hrun as <- <-.
Qed.

Lemma client_command_connects_witness :
  main [chars "zignal"; chars "client"; chars "127.0.0.1"; chars "8080/tcp"]
  = Some (Connect (chars "127.0.0.1") 8080%Z)
  ∧ ∃ steps e,
      start_client_program lcg_seed lcg_next 0%Z 1700000000%Z
        {| socket_result := 3; inet_pton_result := 1; connect_result := -1 |}
        (chars "127.0.0.1") 8080%Z 5 []
      = Some (steps, e)
      ∧ steps !! 1 = Some (SysConnect 3%Z (chars "127.0.0.1") 8080%Z).
Proof.
  destruct (client_command_connects (chars "zignal") (chars "127.0.0.1") 8080%Z
              (chars "/tcp"))
    as [Hmain Hconnect]; [unfold int_range; lia|by intros c [= <-]|].
  split; [exact Hmain|].
  destruct (start_client_program lcg_seed lcg_next 0%Z 1700000000%Z
              {| socket_result := 3; inet_pton_result := 1; connect_result := -1 |}
              (chars "127.0.0.1") 8080%Z 5 []) as [[steps e]|] eqn:Hrun.
  - exists steps, e. split; [reflexivity|].
    destruct (Hconnect Z lcg_seed lcg_next 0%Z 1700000000%Z
                {| socket_result := 3; inet_pton_result := 1; connect_result := -1 |}
                5 [] steps e) as [Hstep Hport]; [simpl; lia|simpl; lia|exact Hrun|].
    rewrite Hport in Hstep by lia. exact Hstep.
  - exfalso. vm_compute in Hrun. discriminate Hrun.
Defined.

(** *** The listener *)

Lemma accept_loop_spec rounds tr started :
  accept_loop rounds = Some (tr, started) →
  started = accept_result
              <$> filter (λ r, (0 ≤ accept_result r)%Z
                               ∧ pthread_create_result r = 0%Z) rounds
  ∧ ∀ x, EvClose x ∉ tr.
Proof.
  revert tr started. induction rounds as [|r rounds IH]; intros tr started; simpl.
  { intros [= <- <-]. split; [done|]. intros x. apply not_elem_of_nil. }
  destruct (malloc_ok r); [|done].
  rewrite filter_cons.
  destruct (accept_loop rounds) as [[tr' started']|]; simpl.
  2:{ repeat case_decide; done. }
  destruct (IH tr' started' eq_refl) as [-> Hnone].
  assert (∀ t x, EvClose x ∉ EvPrint t :: tr') as Hnone'.
  { intros t x [?|?]%elem_of_cons; [done|by eapply Hnone]. }
  destruct (decide (accept_result r < 0)%Z).
  { rewrite decide_False by lia. by intros [= <- <-]. }
  destruct (decide (pthread_create_result r < 0)%Z).
  { rewrite decide_False by lia. by intros [= <- <-]. }
  destruct (decide (pthread_create_result r = 0)%Z); [|done].
  rewrite decide_True by lia. by intros [= <- <-].
Qed.

(** X19.  The listener.  [start_server] gives up, before accepting
    anything, exactly when [socket] returns 0 or [bind], [getsockname] or
    [listen] fails, and then closes no socket but its own.  Otherwise it
    starts a session for each socket that [accept] returned and for which the
    thread was created, in order: a failed [accept] does not stop it, and it
    closes no socket. *)
Theorem listener_starts_sessions (calls : listen_calls)
    (rounds : list accept_round) (tr : list event) (started : list Z)
    (e : server_end) :
  start_server calls rounds = Some (tr, started, e) →
  (e = ServerExit ↔
     (server_socket_result calls = 0 ∨ bind_result calls < 0
      ∨ getsockname_result calls = -1 ∨ listen_result calls < 0)%Z)
  ∧ (e = ServerExit →
     started = [] ∧ ∀ x, EvClose x ∈ tr → x = server_socket_result calls)
  ∧ (e = Accepting →
     started = accept_result
                 <$> filter (λ r, (0 ≤ accept_result r)%Z
                                  ∧ pthread_create_result r = 0%Z) rounds
     ∧ ∀ x, EvClose x ∉ tr).
Proof.
  unfold start_server.
  repeat case_decide.
  1-4: intros [= <- <- <-]; split; [split; [tauto|done]|]; split; [|done];
       intros _; split; [done|]; intros x Hin;
       repeat (apply elem_of_cons in Hin as [Hin|Hin];
               [by (discriminate Hin || injection Hin as ->)|]);
       by apply elem_of_nil in Hin.
  destruct (accept_loop rounds) as [[tr' started']|] eqn:Hloop; simpl; [|done].
  intros [= <- <- <-].
  apply accept_loop_spec in Hloop as [-> Hnone].
  split; [split; [done|lia]|]. split; [done|].
  intros _. split; [done|].
  intros x [?|?]%elem_of_cons; [done|by eapply Hnone].
Qed.

Lemma listener_starts_sessions_witness :
  ∃ tr,
    start_server
      {| server_socket_result := 3; bind_result := 0; getsockname_result := 0;
         bound_port := 40000; listen_result := 0 |}
      [{| malloc_ok := true; accept_result := 4; pthread_create_result := 0 |};
       {| malloc_ok := true; accept_result := -1; pthread_create_result := 0 |};
       {| malloc_ok := true; accept_result := 5; pthread_create_result := 0 |}]
    = Some (tr, [4; 5]%Z, Accepting)
    ∧ ∀ x, EvClose x ∉ tr.
Proof.
  eexists. split; [vm_compute; reflexivity|].
  eapply (listener_starts_sessions
            {| server_socket_result := 3; bind_result := 0; getsockname_result := 0;
               bound_port := 40000; listen_result := 0 |}
            [{| malloc_ok := true; accept_result := 4; pthread_create_result := 0 |};
             {| malloc_ok := true; accept_result := -1; pthread_create_result := 0 |};
             {| malloc_ok := true; accept_result := 5; pthread_create_result := 0 |}]
            _ [4; 5]%Z Accepting); [vm_compute; reflexivity|reflexivity].
Defined.

End ProgramMore.

(** ** Facts about the threads' calls *)

Module ThreadFacts.
Import Server Threads CStringFacts RegistryFacts SessionFacts.

(** *** The shared generator *)

Lemma draws_app {rand_state : Type} (seed_state : Z → rand_state)
    (next_rand : rand_state → Z * rand_state) g l1 l2 :
  draws seed_state next_rand g (l1 ++ l2)
  = draws seed_state next_rand g l1
    ++ draws seed_state next_rand (generator_after seed_state next_rand g l1) l2.
Proof.
  revert g. induction l1 as [|[t now|t] l1 IH]; intros g; simpl; [done| |].
  - apply IH.
  - f_equal. apply IH.
Qed.

(** Every number drawn is returned to a thread that called [rand]. *)
Lemma draws_caller {rand_state : Type} (seed_state : Z → rand_state)
    (next_rand : rand_state → Z * rand_state) g l t id :
  (t, id) ∈ draws seed_state next_rand g l → Rand t ∈ l.
Proof.
  revert g. induction l as [|[t' now|t'] l IH]; intros g; simpl.
  - by intros ?%elem_of_nil.
  - intros ?%IH. by right.
  - intros [Heq|?%IH]%elem_of_cons; [|by right].
    injection Heq as -> _. by left.
Qed.

Lemma identity_of_app t l1 l2 :
  (∀ id, (t, id) ∉ l1) → identity_of t (l1 ++ l2) = identity_of t l2.
Proof.
  induction l1 as [|[t' id'] l1 IH]; intros Hn; simpl; [done|].
  rewrite decide_False.
  - apply IH. intros id Hin. apply (Hn id). by right.
  - intros ->. apply (Hn id'). by left.
Qed.

(** The start of a session as [session_start] has it is the schedule in
    which the session's calls run with no call of another thread between
    them. *)
Lemma session_start_uninterrupted {rand_state : Type}
    (seed_state : Z → rand_state) (next_rand : rand_state → Z * rand_state)
    (cs : list Z) (g : rand_state) (s : Z) (now : Z) (peer : peer_addr)
    (t : nat) :
  let client_info :=
    {| sock := s; client_id := first_draw seed_state next_rand now |} in
  ∃ g' cs' tr,
    session_start seed_state next_rand cs g s true now peer
    = (cs', g', Some client_info, tr)
    ∧ thread_run cs (session_begin client_info peer) = Some (cs', tr)
    ∧ identity_of t (draws seed_state next_rand g (session_calls t now))
      = Some (client_id client_info)
    ∧ assigned_id seed_state next_rand cs g s now peer
      = Some (client_id client_info).
Proof.
  unfold assigned_id, session_start, first_draw, rand, srand. simpl.
  unfold rand, srand.
  destruct (next_rand (seed_state (now `mod` 2 ^ 32)%Z)) as [id g'] eqn:Hrand.
  simpl. rewrite decide_True by done. by eexists _, _, _.
Qed.

(** C8, as the code has it.  A session whose [rand] follows its [srand] with
    no call of another thread on the generator between them is given the
    first number drawn after seeding with the clock value (as
    [unsigned int]), whatever ran before and whatever runs after.  Two such
    sessions that start at the same clock value are given the same
    identity. *)
Theorem uninterrupted_sessions_share_identity {rand_state : Type}
    (seed_state : Z → rand_state) (next_rand : rand_state → Z * rand_state)
    (g : rand_state) (t1 t2 : nat) (now : Z)
    (pre mid post : list generator_call) :
  (Rand t1 ∉ pre →
   identity_of t1
     (draws seed_state next_rand g (pre ++ session_calls t1 now ++ post))
   = Some (first_draw seed_state next_rand now))
  ∧ (t1 ≠ t2 → (Rand t1 ∉ pre) → (Rand t2 ∉ pre ++ mid) →
     let schedule :=
       pre ++ session_calls t1 now ++ mid ++ session_calls t2 now ++ post in
     identity_of t1 (draws seed_state next_rand g schedule)
     = Some (first_draw seed_state next_rand now)
     ∧ identity_of t2 (draws seed_state next_rand g schedule)
       = identity_of t1 (draws seed_state next_rand g schedule)).
Proof.
  assert (∀ t before after, Rand t ∉ before →
            identity_of t
              (draws seed_state next_rand g
                 (before ++ session_calls t now ++ after))
            = Some (first_draw seed_state next_rand now)) as Hown.
  { intros t before after Hbefore. rewrite draws_app, identity_of_app.
    - simpl. by rewrite decide_True.
    - intros id Hin. by apply draws_caller in Hin. }
  split; [apply Hown|].
  intros Hne Hpre Hmid schedule. split; [by apply Hown|].
  unfold schedule. rewrite (Hown t1) by done.
  rewrite (app_assoc (session_calls t1 now)), (app_assoc pre).
  apply Hown. rewrite not_elem_of_app in Hmid. destruct Hmid as [Hmid1 Hmid2].
  rewrite !elem_of_app. unfold session_calls.
  intros [?|[Hin|?]]; [done| |done].
  apply elem_of_cons in Hin as [?|Hin]; [done|].
  apply elem_of_cons in Hin as [[= ?]|Hin]; [done|].
  by apply elem_of_nil in Hin.
Qed.

Lemma uninterrupted_sessions_share_identity_witness :
  identity_of 1
    (draws lcg_seed lcg_next 0%Z
       (session_calls 1 1700000000 ++ session_calls 2 1700000000))
  = Some 25939%Z
  ∧ identity_of 2
      (draws lcg_seed lcg_next 0%Z
         (session_calls 1 1700000000 ++ session_calls 2 1700000000))
    = Some 25939%Z.
Proof.
  destruct (uninterrupted_sessions_share_identity lcg_seed lcg_next 0%Z 1 2
              1700000000%Z [] [] []) as [_ Hboth].
  destruct Hboth as [H1 H2];
    [discriminate|apply not_elem_of_nil|apply not_elem_of_nil|].
  split; [exact H1|exact (eq_trans H2 H1)].
Defined.

(** C8 as worded fails on the code: when both sessions have seeded the
    generator before either of them draws, the first is given the first
    number after the seed, 25939 with the generator of the examples, and the
    second the number after that, 7723. *)
Lemma identity_by_tick_counterexample :
  ¬ identity_by_tick lcg_seed lcg_next 0%Z 1 2 1700000000%Z
      [Srand 1 1700000000%Z; Srand 2 1700000000%Z; Rand 1; Rand 2].
Proof.
  intros H. specialize (H eq_refl eq_refl). vm_compute in H. discriminate H.
Qed.

(** *** The shared registry *)

(** A turn of the read loop as [session_read] has it is the schedule in which
    the calls of the turn, and after the last turn those that end the session,
    run with no call of another thread between them. *)
Lemma session_read_uninterrupted cs A peer r :
  (λ x, (x.1.1, x.1.2)) <$> session_read cs A peer r
  = turn_calls A peer r ≫= thread_run cs.
Proof.
  unfold session_read, turn_calls.
  destruct (read_into (zeroed BUFFER_SIZE) r) as [buffer valread].
  case_decide; [done|].
  destruct (c_str buffer) as [text|]; [|done].
  change (Some text ≫= ?f) with (f text). cbv beta.
  change (Some ?l ≫= ?f) with (f l). cbv beta.
  cbn -[broadcast_message snprintf BUFFER_SIZE Nat.add tagged log_sent].
  destruct (broadcast_message cs (sock A)
              (snprintf (BUFFER_SIZE + 50) (tagged (client_id A) text)))
    as [sends|]; [|done].
  cbn -[log_sent]. by rewrite app_nil_r.
Qed.

(** A broadcast writes to sockets that are in a slot, and to neither 0 nor
    the sender, whatever the message. *)
Lemma broadcast_loop_recipients n cs sender message :
  ∀ i tr x,
    broadcast_loop n i cs sender message = Some tr →
    x ∈ recipients tr → (x ≠ 0%Z ∧ x ≠ sender) ∧ (x ∈ cs).
Proof.
  induction n as [|n IH]; intros i tr x; simpl.
  { intros [= <-]. by intros ?%elem_of_nil. }
  destruct (cs !! i) as [c|] eqn:Hc; [|apply IH].
  destruct (decide (c ≠ 0%Z ∧ c ≠ sender)) as [Hok|_]; [|apply IH].
  destruct (strlen message) as [len|]; [|done].
  change (Some len ≫= ?f) with (f len). cbv beta.
  destruct (broadcast_loop n (S i) cs sender message) as [rest|] eqn:Hrest;
    [|done].
  simpl. intros [= <-]. simpl. intros [->|Hin]%elem_of_cons.
  - split; [done|]. by eapply list_elem_of_lookup_2.
  - by eapply IH.
Qed.

Lemma broadcast_message_recipients cs sender message tr x :
  broadcast_message cs sender message = Some tr →
  x ∈ recipients tr → (x ≠ 0%Z ∧ x ≠ sender) ∧ (x ∈ cs).
Proof.
  unfold broadcast_message.
  destruct (broadcast_loop MAX_CLIENTS 0 cs sender message) as [sends|] eqn:Hl;
    [|done].
  simpl. intros [= <-].
  change (recipients (EvLock :: ?l)) with (recipients l).
  rewrite recipients_app. simpl. rewrite app_nil_r.
  by eapply broadcast_loop_recipients.
Qed.

(** A socket that is in no slot, and that no later call registers, is never
    written to, whatever the schedule. *)
Lemma thread_run_unregistered s schedule :
  ∀ cs cs' tr,
    length cs = MAX_CLIENTS →
    (s = 0%Z ∨ s ∉ cs) →
    forallb (λ c, negb (adds s c)) schedule = true →
    thread_run cs schedule = Some (cs', tr) →
    s ∉ recipients tr.
Proof.
  induction schedule as [|c schedule IH]; intros cs cs' tr Hcs Hs Hadds; simpl.
  { intros [= <- <-]. apply not_elem_of_nil. }
  simpl in Hadds. apply andb_true_iff in Hadds as [Hc Hadds].
  destruct (thread_step cs c) as [[cs1 tr1]|] eqn:Hstep; simpl; [|done].
  destruct (thread_run cs1 schedule) as [[cs2 tr2]|] eqn:Hrun; simpl; [|done].
  intros [= <- <-]. rewrite recipients_app, not_elem_of_app.
  assert (length cs1 = MAX_CLIENTS ∧ (s = 0%Z ∨ s ∉ cs1) ∧ s ∉ recipients tr1)
    as (Hcs1 & Hs1 & Htr1); [|split; [done|by eapply IH]].
  destruct c as [x|sender message|x|x|text]; simpl in Hstep.
  - injection Hstep as <- <-. split; [|split; [|apply not_elem_of_nil]].
    + unfold add_client. by rewrite add_client_loop_length.
    + destruct Hs as [?|Hs]; [by left|right].
      rewrite add_client_add_first by lia.
      intros [->|?]%elem_of_add_first; [|done].
      simpl in Hc. by rewrite bool_decide_eq_true_2 in Hc.
  - destruct (broadcast_message cs sender message) as [sends|] eqn:Hsends;
      simpl in Hstep; [|done].
    injection Hstep as <- <-. split; [done|]. split; [done|].
    intros Hin.
    destruct (broadcast_message_recipients _ _ _ _ _ Hsends Hin)
      as [[Hs0 _] Hin'].
    by destruct Hs.
  - injection Hstep as <- <-. split; [|split; [|apply not_elem_of_nil]].
    + unfold remove_client. by rewrite remove_client_loop_length.
    + destruct Hs as [?|Hs]; [by left|].
      destruct (decide (s = 0%Z)) as [?|Hs0]; [by left|right].
      rewrite remove_client_remove_first by lia.
      intros [?|?]%elem_of_remove_first; done.
  - injection Hstep as <- <-. split; [done|]. split; [done|].
    apply not_elem_of_nil.
  - injection Hstep as <- <-. split; [done|]. split; [done|].
    apply not_elem_of_nil.
Qed.

(** X10.  Delivery to a socket stops with its [remove_client], not with the
    [read] that ends its session.  Once [remove_client] has run for a socket
    that was in at most one slot, no call of any thread writes to it, as long
    as it is not registered anew.  A broadcast of another session that runs
    after the session has printed its disconnection and before its
    [remove_client] still writes to the socket. *)
Theorem delivery_stops_at_remove_client (cs : list Z) (A : client_info_t)
    (peer : peer_addr) (sender : Z) (message : list ascii) (len : nat)
    (schedule : list thread_call) :
  length cs = MAX_CLIENTS →
  slots_of cs (sock A) ≤ 1 →
  (∀ cs' tr,
     forallb (λ c, negb (adds (sock A) c)) schedule = true →
     thread_run cs (RemoveClient (sock A) :: schedule) = Some (cs', tr) →
     sock A ∉ recipients tr)
  ∧ (sock A ∈ cs → sock A ≠ 0%Z → sender ≠ sock A →
     strlen message = Some len →
     ∃ cs' tr,
       thread_run cs
         [Printf (log_disconnected peer (client_id A));
          BroadcastMessage sender message;
          RemoveClient (sock A);
          Close (sock A)]
       = Some (cs', tr)
       ∧ (sock A ∈ recipients tr) ∧ (sock A ∉ cs')).
Proof.
  intros Hcs Hone.
  assert (sock A = 0%Z ∨ sock A ∉ remove_client cs (sock A)) as Hgone.
  { destruct (decide (sock A = 0%Z)) as [?|Hs0]; [by left|right].
    rewrite remove_client_remove_first by lia.
    rewrite slots_of_pos, slots_of_remove_first by done.
    rewrite decide_True by done. lia. }
  split.
  - intros cs' tr Hadds.
    change (thread_run cs (RemoveClient (sock A) :: schedule))
      with ('(cs2, tr') ← thread_run (remove_client cs (sock A)) schedule;
            Some (cs2, [EvLock; EvUnlock] ++ tr')).
    destruct (thread_run (remove_client cs (sock A)) schedule)
      as [[cs2 tr2]|] eqn:Hrun; simpl; [|done].
    intros [= <- <-]. change (sock A ∉ recipients tr2).
    eapply (thread_run_unregistered (sock A) schedule
              (remove_client cs (sock A))); [|exact Hgone|exact Hadds|exact Hrun].
    unfold remove_client. by rewrite remove_client_loop_length.
  - intros Hin Hs0 Hsender Hlen.
    eexists (remove_client cs (sock A)), _. split; [|split].
    + cbn -[log_disconnected remove_client broadcast_message].
      rewrite (broadcast_message_targets cs sender message len) by (done || lia).
      cbn -[log_disconnected remove_client]. reflexivity.
    + change (recipients (EvPrint ?t :: EvLock :: ?l)) with (recipients l).
      rewrite !recipients_app, recipients_sends, !elem_of_app. left. left.
      by apply elem_of_targets.
    + by destruct Hgone.
Qed.

Lemma delivery_stops_at_remove_client_witness :
  (∃ cs' tr,
     thread_run (run_ops [Add 4; Add 5]%Z)
       [RemoveClient 5; BroadcastMessage 4 (chars "hi" ++ [NUL]); Close 5]%Z
     = Some (cs', tr)
     ∧ 5%Z ∉ recipients tr)
  ∧ (∃ cs' tr,
       thread_run (run_ops [Add 4; Add 5]%Z)
         [Printf (log_disconnected example_peer 7);
          BroadcastMessage 4 (chars "hi" ++ [NUL]);
          RemoveClient 5; Close 5]%Z
       = Some (cs', tr)
       ∧ (5%Z ∈ recipients tr) ∧ (5%Z ∉ cs')).
Proof.
  destruct (delivery_stops_at_remove_client (run_ops [Add 4; Add 5]%Z)
              {| sock := 5; client_id := 7 |} example_peer 4%Z
              (chars "hi" ++ [NUL]) 2
              [BroadcastMessage 4 (chars "hi" ++ [NUL]); Close 5]%Z)
    as [Hafter Hbefore]; [reflexivity|vm_compute; lia|].
  split.
  - eexists _, _. split; [vm_compute; reflexivity|].
    eapply Hafter; [reflexivity|vm_compute; reflexivity].
  - apply Hbefore; [|discriminate|discriminate|reflexivity].
    apply (bool_decide_unpack (5%Z ∈ _)). vm_compute. exact I.
Defined.

End ThreadFacts.
